(** * MTPA and MTPV loci of [control/sm/opt_refs.py]

    A shallow embedding of the class [OptimalLoci] (constructor, [torque],
    [mtpa], [mtpv]) and the properties of its loci.

    Number model.  The motor parameters, [i_max] and the current components
    are Python floats.  They are idealised here as real numbers: no
    overflow, no infinities, and no rounding except in one place (below).
    The one special value that the code can create out of real inputs is
    NaN, which [np.sqrt] returns on a negative argument (with a warning, not
    an exception); array elements are therefore values of [float64], a real
    or NaN.  Python's own [/] raises [ZeroDivisionError] on a zero divisor,
    and that is kept.  [N] is a Python [int], here a [Z].

    Rounding is kept where it decides between a number and NaN.  In [mtpv]
    the argument [abs_i**2 - i_d**2] of the last square root is exactly zero
    at the first sample of an IPMSM with [L_d < L_q], so that its computed
    sign is a matter of rounding alone: [mtpv] therefore takes the rounding
    error of this difference as an argument, a function [rounding] of the
    sampled magnitude about which nothing is assumed.  The other square
    roots are taken away from the edge of their domains: in [mtpa] the
    arguments are at least [|i|^2/2] (and exactly [0] at the origin, where
    every operand is [0]), and the discriminant in [mtpv] is at least the
    square of [b - 2*a*psi_f/L_d], which is not zero. *)

From Stdlib Require Import Reals List ZArith Lia Lra Bool.
Import ListNotations.

Open Scope R_scope.

(** ** Exceptions and results *)

(** The exceptions that the code can raise, and the three error classes
    that the specification names. *)
Inductive exn : Type :=
| AttributeError
| UnboundLocalError
| ZeroDivisionError
| ValueError
| InvalidParameterError
| InvalidArgumentError
| NumericDomainError.

Inductive result (A : Type) : Type :=
| Ok (a : A)
| Raise (e : exn).

Arguments Ok {A} a.
Arguments Raise {A} e.

(** ** Numbers *)

(** An element of a numpy float array: a real number or NaN. *)
Inductive float64 : Type :=
| Fin (r : R)
| NaN.

(** An element of a numpy complex array. *)
Record complex128 : Type := C128 { re128 : float64; im128 : float64 }.

(** A Python [complex] scalar with finite parts. *)
Record complex : Type := Cplx { real : R; imag : R }.

Definition Rltb (x y : R) : bool := if Rlt_dec x y then true else false.
Definition Rgeb (x y : R) : bool := if Rge_dec x y then true else false.

(** A numpy boolean used as a factor: [True] is 1, [False] is 0. *)
Definition b2R (b : bool) : R := if b then 1 else 0.

Module F.
(** Arithmetic on array elements; NaN is absorbing. *)
Definition lift2 (op : R -> R -> R) (x y : float64) : float64 :=
  match x, y with
  | Fin a, Fin b => Fin (op a b)
  | _, _ => NaN
  end.

Definition add := lift2 Rplus.
Definition sub := lift2 Rminus.
Definition mul := lift2 Rmult.

(** [x**2] on an array element. *)
Definition sq (x : float64) : float64 := mul x x.

(** [np.sqrt]: NaN on a negative argument. *)
Definition sqrt (x : float64) : float64 :=
  match x with
  | Fin a => if Rlt_dec a 0 then NaN else Fin (R_sqrt.sqrt a)
  | NaN => NaN
  end.

(** Division of an array element by a Python float [d].  Its one use is
    the division by [2*a] in [mtpv], where [d] is not zero (see
    [mtpv_divisor_nonzero]). *)
Definition div (x : float64) (d : R) : float64 :=
  match x with
  | Fin a => Fin (a / d)
  | NaN => NaN
  end.

End F.

Module C.
(** Complex arithmetic on array elements, componentwise as numpy's loops
    compute it. *)
Definition of_float (x : float64) : complex128 := C128 x (Fin 0).

Definition add (z w : complex128) : complex128 :=
  C128 (F.add (re128 z) (re128 w)) (F.add (im128 z) (im128 w)).

Definition mul (z w : complex128) : complex128 :=
  C128 (F.sub (F.mul (re128 z) (re128 w)) (F.mul (im128 z) (im128 w)))
       (F.add (F.mul (re128 z) (im128 w)) (F.mul (im128 z) (re128 w))).

(** The literal [1j]. *)
Definition j : complex128 := C128 (Fin 0) (Fin 1).

(** [np.abs] of a complex element. *)
Definition abs (z : complex128) : float64 :=
  F.sqrt (F.add (F.sq (re128 z)) (F.sq (im128 z))).
End C.

(** [i_d + 1j*i_q] on one pair of array elements. *)
Definition mk_current (i_d i_q : float64) : complex128 :=
  C.add (C.of_float i_d) (C.mul C.j (C.of_float i_q)).

(** Python's float division. *)
Definition py_div (x y : R) : result R :=
  if Req_dec_T y 0 then Raise ZeroDivisionError else Ok (x / y).

(** ** [np.linspace]

    numpy's [linspace(start, stop, num)] with the default [endpoint=True]:
    a negative [num] is refused, the samples are [arange(num)*step + start]
    with [step = (stop - start)/(num - 1)] (computed as
    [arange(num)/(num - 1)*delta] when the step is zero), and the last sample
    is then overwritten by [stop]. *)

Definition set_last {A : Type} (y : list A) (v : A) : list A :=
  match y with
  | [] => []
  | _ :: _ => removelast y ++ [v]
  end.

Definition arange (num : Z) : list R := map INR (seq 0 (Z.to_nat num)).

Definition linspace (start stop : R) (num : Z) : result (list R) :=
  if (num <? 0)%Z then Raise ValueError
  else
    let div := (num - 1)%Z in
    let delta := stop - start in
    let y := arange num in
    let y :=
      if (0 <? div)%Z then
        let step := delta / IZR div in
        if Req_dec_T step 0
        then map (fun v => v * delta) (map (fun v => v / IZR div) y)
        else map (fun v => v * step) y
      else map (fun v => v * delta) y in
    let y := map (fun v => v + start) y in
    Ok (if (1 <? num)%Z then set_last y stop else y).

(** ** The solver object and its methods *)

(** The data object handed to the constructor.  The attribute [i_d_min] may
    be missing. *)
Module Pars.
Record t : Type := Build
  { p : Z; L_d : R; L_q : R; psi_f : R; i_d_min : option R }.
End Pars.

(** The attributes of an [OptimalLoci] instance.  [i_d_min = None] is the
    instance without that attribute. *)
Record OptimalLoci : Type := Self
  { p : Z; L_d : R; L_q : R; psi_f : R; i_d_min : option R }.

(** [__init__]: four plain attribute copies, and [i_d_min] under
    [try ... except AttributeError: pass]. *)
Definition __init__ (pars : Pars.t) : result OptimalLoci :=
  let self_p := Pars.p pars in
  let self_L_d := Pars.L_d pars in
  let self_L_q := Pars.L_q pars in
  let self_psi_f := Pars.psi_f pars in
  match Pars.i_d_min pars with
  | Some m => Ok (Self self_p self_L_d self_L_q self_psi_f (Some m))
  | None => Ok (Self self_p self_L_d self_L_q self_psi_f None)
  end.

(** A method body: it runs on [self], may raise, and hands [self] on. *)
Definition M (A : Type) : Type := OptimalLoci -> result A * OptimalLoci.

Definition ret {A : Type} (a : A) : M A := fun self => (Ok a, self).

Definition raise {A : Type} (e : exn) : M A := fun self => (Raise e, self).

Definition bind {A B : Type} (m : M A) (k : A -> M B) : M B :=
  fun self =>
    match m self with
    | (Ok a, self') => k a self'
    | (Raise e, self') => (Raise e, self')
    end.

Notation "x <- m ;; k" := (bind m (fun x => k))
  (at level 61, m at next level, right associativity).

(** The outcome of a Python-level computation inside a method. *)
Definition lift {A : Type} (r : result A) : M A := fun self => (r, self).

(** [self.<name>] for an attribute that [__init__] always sets. *)
Definition attr {A : Type} (field : OptimalLoci -> A) : M A :=
  fun self => (Ok (field self), self).

(** [self.i_d_min]: the attribute may be missing. *)
Definition attr_i_d_min : M R :=
  fun self =>
    match i_d_min self with
    | Some m => (Ok m, self)
    | None => (Raise AttributeError, self)
    end.

(** What a call returns or raises, and the object it leaves behind. *)
Definition returns {A : Type} (m : M A) (self : OptimalLoci) : result A :=
  fst (m self).

Definition leaves {A : Type} (m : M A) (self : OptimalLoci) : OptimalLoci :=
  snd (m self).

(** *** torque *)

Module PyC.
(** Python's arithmetic on [complex] scalars; a float operand is first
    converted to a complex with imaginary part 0. *)
Definition of_float (x : R) : complex := Cplx x 0.
Definition add (z w : complex) : complex :=
  Cplx (real z + real w) (imag z + imag w).
Definition mul (z w : complex) : complex :=
  Cplx (real z * real w - imag z * imag w)
       (real z * imag w + imag z * real w).
Definition conj (z : complex) : complex := Cplx (real z) (- imag z).
Definition j : complex := Cplx 0 1.
End PyC.

(** [psi = self.L_d*i.real + 1j*self.L_q*i.imag + self.psi_f] *)
Definition flux (self_L_d self_L_q self_psi_f : R) (i : complex) : complex :=
  PyC.add
    (PyC.add (PyC.of_float (self_L_d * real i))
             (PyC.mul (PyC.mul PyC.j (PyC.of_float self_L_q))
                      (PyC.of_float (imag i))))
    (PyC.of_float self_psi_f).

Definition torque (i : complex) : M R :=
  self_L_d <- attr L_d ;;
  self_L_q <- attr L_q ;;
  self_psi_f <- attr psi_f ;;
  let psi := flux self_L_d self_L_q self_psi_f i in
  self_p <- attr p ;;
  let T_M := 1.5 * IZR self_p * imag (PyC.mul i (PyC.conj psi)) in
  ret T_M.

(** *** mtpa *)

(** One element of the SyRM branch: [i_q] keeps the sample, [i_d] is
    [(i_d < i_d_min)*i_d_min + (i_d >= i_d_min)*i_d]. *)
Definition mtpa_syrm_point (self_i_d_min : R) (x : R) : complex128 :=
  let i_d := x in
  let i_q := i_d in
  let i_d := b2R (Rltb i_d self_i_d_min) * self_i_d_min
             + b2R (Rgeb i_d self_i_d_min) * i_d in
  mk_current (Fin i_d) (Fin i_q).

(** One element of the IPMSM branch. *)
Definition mtpa_ipmsm_i_d (i_a abs_i : R) : float64 :=
  F.sub (Fin (- i_a / 4)) (F.sqrt (Fin (i_a ^ 2 / 16 + abs_i ^ 2 / 2))).

Definition mtpa_ipmsm_i_q (i_a abs_i : R) : float64 :=
  F.sqrt (F.sub (Fin (abs_i ^ 2)) (F.sq (mtpa_ipmsm_i_d i_a abs_i))).

Definition mtpa_ipmsm_point (i_a abs_i : R) : complex128 :=
  mk_current (mtpa_ipmsm_i_d i_a abs_i) (mtpa_ipmsm_i_q i_a abs_i).

Definition mtpa (i_max : R) (N : Z) : M (list complex128) :=
  self_psi_f <- attr psi_f ;;
  if Req_dec_T self_psi_f 0 then
    (* Magnetically linear SyRM *)
    i_d <- lift (linspace 0 (i_max / sqrt 2) N) ;;
    self_i_d_min <- attr_i_d_min ;;
    ret (map (mtpa_syrm_point self_i_d_min) i_d)
  else
    (* IPMSM *)
    abs_i <- lift (linspace 0 i_max N) ;;
    self_L_d <- attr L_d ;;
    self_L_q <- attr L_q ;;
    i_a <- lift (py_div self_psi_f (self_L_d - self_L_q)) ;;
    ret (map (mtpa_ipmsm_point i_a) abs_i).

(** *** mtpv *)

(** [abs_i*np.exp(1j*np.arctan(L_d/L_q))] on one element; [theta] is the
    arctangent. *)
Definition np_exp (z : complex128) : complex128 :=
  match re128 z, im128 z with
  | Fin x, Fin y => C128 (Fin (exp x * cos y)) (Fin (exp x * sin y))
  | _, _ => C128 NaN NaN
  end.

Definition mtpv_syrm_point (theta : R) (abs_i : R) : complex128 :=
  C.mul (C.of_float (Fin abs_i)) (np_exp (C.mul C.j (C.of_float (Fin theta)))).

(** One element of the IPMSM branch: the coefficient [c], the discriminant,
    the root with the minus sign, and [i_q]. *)
Definition mtpv_c (k self_psi_f self_L_q abs_i : R) : R :=
  (1 + k) * self_psi_f ^ 2 - (self_L_q * abs_i) ^ 2.

Definition mtpv_disc (a b c : R) : R := b ^ 2 - 4 * a * c.

Definition mtpv_i_d (a b c : R) : float64 :=
  F.div (F.sub (Fin (- b)) (F.sqrt (Fin (mtpv_disc a b c)))) (2 * a).

(** [i_q = np.sqrt(abs_i**2 - i_d**2)].  In exact arithmetic the argument
    of this square root is zero at the first sample, [|i| = psi_f/L_d], of
    a machine with [L_d < L_q]: its sign in binary64, and with it the choice
    between a real [i_q] and NaN, is decided by the rounding of the
    operands.  This one rounding error is therefore kept: [err] is the
    difference between the computed and the exact value of
    [abs_i**2 - i_d**2] at the sample. *)
Definition mtpv_i_q (err : R) (abs_i : R) (i_d : float64) : float64 :=
  F.sqrt (F.add (F.sub (Fin (abs_i ^ 2)) (F.sq i_d)) (Fin err)).

Definition mtpv_ipmsm_point (rounding : R -> R)
  (k a b self_psi_f self_L_q abs_i : R) : complex128 :=
  let c := mtpv_c k self_psi_f self_L_q abs_i in
  let i_d := mtpv_i_d a b c in
  let i_q := mtpv_i_q (rounding abs_i) abs_i i_d in
  mk_current i_d i_q.

(** The local variable [i] is bound in two of the three cases only;
    [return i] raises [UnboundLocalError] when it is not.  [rounding] gives,
    for each sampled magnitude, the rounding error of [abs_i**2 - i_d**2]
    (see [mtpv_i_q]); exact arithmetic is [rounding = fun _ => 0]. *)
Definition mtpv (rounding : R -> R) (i_max : R) (N : Z)
  : M (list complex128) :=
  self_psi_f <- attr psi_f ;;
  self_L_d <- attr L_d ;;
  self_L_q <- attr L_q ;;
  i <- (if Req_dec_T self_psi_f 0 then
          (* Magnetically linear SyRM *)
          abs_i <- lift (linspace 0 i_max N) ;;
          ratio <- lift (py_div self_L_d self_L_q) ;;
          ret (Some (map (mtpv_syrm_point (atan ratio)) abs_i))
        else
          knee <- lift (py_div self_psi_f self_L_d) ;;
          if Rlt_dec knee i_max then
            (* IPMSM *)
            abs_i <- lift (linspace knee i_max N) ;;
            k <- lift (py_div self_L_q (self_L_d - self_L_q)) ;;
            let a := self_L_d ^ 2 + self_L_q ^ 2 in
            let b := (2 + k) * self_psi_f * self_L_d in
            ret (Some (map (mtpv_ipmsm_point rounding k a b self_psi_f self_L_q)
                           abs_i))
          else
            ret None) ;;
  match i with
  | Some locus => ret locus
  | None => raise UnboundLocalError
  end.

(** *** torque on an array, and the first part of plot *)

(** [plot] hands whole loci to [torque].  The same method body then runs
    on a complex array: [i.real] and [i.imag] are float arrays, [1j*self.L_q]
    is still a Python complex, and every other operation is numpy's, element
    by element, with NaN spreading. *)
Module NP.
Definition neg (x : float64) : float64 :=
  match x with
  | Fin a => Fin (- a)
  | NaN => NaN
  end.

(** [np.conj] on one element. *)
Definition conj (z : complex128) : complex128 :=
  C128 (re128 z) (neg (im128 z)).

(** A Python complex scalar used in an array operation. *)
Definition of_py (z : complex) : complex128 :=
  C128 (Fin (real z)) (Fin (imag z)).

(** The truth value of one element: zero is false, NaN is true. *)
Definition nonzero (z : complex128) : bool :=
  match re128 z, im128 z with
  | Fin a, Fin b =>
      if Req_dec_T a 0 then (if Req_dec_T b 0 then false else true) else true
  | _, _ => true
  end.

(** [array.any()]. *)
Definition any (a : list complex128) : bool := existsb nonzero a.
End NP.

(** [psi = self.L_d*i.real + 1j*self.L_q*i.imag + self.psi_f] on one
    element of the array [i]. *)
Definition flux128 (self_L_d self_L_q self_psi_f : R) (i : complex128)
  : complex128 :=
  C.add
    (C.add (C.of_float (F.mul (Fin self_L_d) (re128 i)))
           (C.mul (NP.of_py (PyC.mul PyC.j (PyC.of_float self_L_q)))
                  (C.of_float (im128 i))))
    (C.of_float (Fin self_psi_f)).

(** [1.5*self.p*np.imag(i*np.conj(psi))] on one element. *)
Definition torque_elem (self_p : Z) (self_L_d self_L_q self_psi_f : R)
  (i : complex128) : float64 :=
  let psi := flux128 self_L_d self_L_q self_psi_f i in
  F.mul (Fin (1.5 * IZR self_p)) (im128 (C.mul i (NP.conj psi))).

(** [torque] called with an array. *)
Definition torque_array (i : list complex128) : M (list float64) :=
  self_L_d <- attr L_d ;;
  self_L_q <- attr L_q ;;
  self_psi_f <- attr psi_f ;;
  self_p <- attr p ;;
  ret (map (torque_elem self_p self_L_d self_L_q self_psi_f) i).

(** What [plot] computes before it draws. *)
Record characteristics : Type := Characteristics
  { i_lim : list complex128;
    i_mtpa : list complex128;
    T_M_mtpa : list float64;
    i_mtpv : list complex128;
    T_M_mtpv : option (list float64) }.

(** One element of [i_max*np.exp(1j*theta)]. *)
Definition limit_point (i_max theta : R) : complex128 :=
  C.mul (C.of_float (Fin i_max)) (np_exp (C.mul C.j (C.of_float (Fin theta)))).

(** The part of [plot] from [theta = np.linspace(0, np.pi, 2*N)] to the
    [if i_mtpv.any()] statement: the current limit and the two loci with
    their torques.  The matplotlib calls before and after it are not
    modelled; an exception raised here is raised by [plot]. *)
Definition plot_characteristics (rounding : R -> R) (i_max : R) (N : Z)
  : M characteristics :=
  theta <- lift (linspace 0 PI (2 * N)) ;;
  let i_lim := map (limit_point i_max) theta in
  i_mtpa <- mtpa i_max N ;;
  T_M_mtpa <- torque_array i_mtpa ;;
  i_mtpv <- mtpv rounding i_max N ;;
  T_M_mtpv <- (if NP.any i_mtpv
               then T <- torque_array i_mtpv ;; ret (Some T)
               else ret None) ;;
  ret (Characteristics i_lim i_mtpa T_M_mtpa i_mtpv T_M_mtpv).

(** * Notions used in the statements *)

(** ** Outcomes of calls *)

(** A method that hands on the object it received. *)
Definition readonly {A : Type} (m : M A) : Prop :=
  forall self, leaves m self = self.

(** Sequencing of Python-level results, as the method bodies do it. *)
Definition on_ok {A B : Type} (r : result A) (k : A -> result B) : result B :=
  match r with
  | Ok a => k a
  | Raise e => Raise e
  end.

(** ** Samples of [linspace] *)

(** The value that [linspace start stop num] holds at index [j]. *)
Definition sample (start stop : R) (num : Z) (j : nat) : R :=
  if (1 <? num)%Z
  then if Nat.eqb (S j) (Z.to_nat num) then stop
       else INR j * ((stop - start) / IZR (num - 1)) + start
  else INR j * (stop - start) + start.

Definition samples (start stop : R) (num : Z) : list R :=
  map (sample start stop num) (seq 0 (Z.to_nat num)).

(** ** Valid and invalid parameters *)

(** The parameter sets that the specification calls physically invalid. *)
Definition invalid_parameters (pars : Pars.t) : Prop :=
  Pars.L_d pars <= 0 \/ Pars.L_q pars <= 0 \/ Pars.psi_f pars < 0
  \/ (Pars.p pars <= 0)%Z.

(** The opposite test, on a constructed solver. *)
Definition valid (self : OptimalLoci) : Prop :=
  0 < L_d self /\ 0 < L_q self /\ 0 <= psi_f self /\ (0 < p self)%Z.

(** ** Torque *)

(** The flux linkage as the specification writes it:
    [psi = L_d*Re(i) + j*L_q*Im(i) + psi_f]. *)
Definition psi_spec (self : OptimalLoci) (i : complex) : complex :=
  Cplx (L_d self * real i + psi_f self) (L_q self * imag i).

(** ** The MTPV quadratic *)

(** The coefficients [k], [a], [b] on a solver. *)
Definition mtpv_k (self : OptimalLoci) : R := L_q self / (L_d self - L_q self).

Definition mtpv_a (self : OptimalLoci) : R := L_d self ^ 2 + L_q self ^ 2.

Definition mtpv_b (self : OptimalLoci) : R :=
  (2 + mtpv_k self) * psi_f self * L_d self.

(** The discriminant [b^2 - 4*a*c] at a current magnitude. *)
Definition discriminant (self : OptimalLoci) (abs_i : R) : R :=
  mtpv_disc (mtpv_a self) (mtpv_b self)
            (mtpv_c (mtpv_k self) (psi_f self) (L_q self) abs_i).

(** The root with the minus sign. *)
Definition mtpv_root (self : OptimalLoci) (abs_i : R) : R :=
  (- mtpv_b self - sqrt (discriminant self abs_i)) / (2 * mtpv_a self).

(** The element that the IPMSM branch of [mtpv] computes at [abs_i]. *)
Definition mtpv_element (rounding : R -> R) (self : OptimalLoci) (abs_i : R)
  : complex128 :=
  mtpv_ipmsm_point rounding (mtpv_k self) (mtpv_a self) (mtpv_b self)
                   (psi_f self) (L_q self) abs_i.

(** The value that the code has for [abs_i**2 - i_d**2] at [abs_i] when
    the discriminant is not negative: the exact difference and its rounding
    error. *)
Definition mtpv_difference (rounding : R -> R) (self : OptimalLoci)
  (abs_i : R) : R :=
  abs_i ^ 2 - mtpv_root self abs_i ^ 2 + rounding abs_i.

(** Exact arithmetic in [abs_i**2 - i_d**2]. *)
Definition no_rounding : R -> R := fun _ => 0.

(** A computed difference that falls below the exact one. *)
Definition rounds_down : R -> R := fun _ => - (1 / 1000).

(** The current magnitude of the [j]-th MTPV sample. *)
Definition mtpv_magnitude (self : OptimalLoci) (i_max : R) (N : Z) (j : nat)
  : R :=
  psi_f self / L_d self
  + INR j * ((i_max - psi_f self / L_d self) / IZR (N - 1)).

(** ** What the loci methods do with unchecked arguments *)

(** The outcomes of [mtpa] on a valid solver, for any [i_max] and [N]. *)
Definition mtpa_outcome (self : OptimalLoci) (N : Z)
  (r : result (list complex128)) : Prop :=
  match r with
  | Ok locus => (0 <= N)%Z /\ length locus = Z.to_nat N
  | Raise ValueError => (N < 0)%Z
  | Raise AttributeError =>
      (0 <= N)%Z /\ psi_f self = 0 /\ i_d_min self = None
  | Raise ZeroDivisionError =>
      (0 <= N)%Z /\ psi_f self <> 0 /\ L_d self = L_q self
  | Raise _ => False
  end.

(** The outcomes of [mtpv] on a valid solver, for any [i_max] and [N]. *)
Definition mtpv_outcome (self : OptimalLoci) (i_max : R) (N : Z)
  (r : result (list complex128)) : Prop :=
  match r with
  | Ok locus =>
      (0 <= N)%Z /\ length locus = Z.to_nat N
      /\ (psi_f self = 0 \/ psi_f self / L_d self < i_max)
  | Raise ValueError =>
      (N < 0)%Z /\ (psi_f self = 0 \/ psi_f self / L_d self < i_max)
  | Raise UnboundLocalError =>
      psi_f self <> 0 /\ i_max <= psi_f self / L_d self
  | Raise ZeroDivisionError =>
      (0 <= N)%Z /\ psi_f self <> 0 /\ psi_f self / L_d self < i_max
      /\ L_d self = L_q self
  | Raise _ => False
  end.

(** ** Machines used as inputs *)

(** The motor of the specification's IPMSM example. *)
Definition ipmsm_example : OptimalLoci := Self 3 0.036 0.051 0.545 None.

(** A permanent-magnet machine with [L_d < L_q]. *)
Definition ipmsm : OptimalLoci := Self 3 1 2 1 None.

(** A permanent-magnet machine without saliency, [L_d == L_q]. *)
Definition spm : OptimalLoci := Self 3 1 1 1 None.

(** A machine with [L_d > L_q]: valid for the specification, but its MTPV
    root at the knee lies outside the current circle. *)
Definition inverse_saliency : OptimalLoci := Self 3 1 (1 / 2) 1 None.

(** A SyRM without the attribute [i_d_min]. *)
Definition syrm_no_floor : OptimalLoci := Self 2 4 1 0 None.

(** A SyRM whose [i_d_min] is 0. *)
Definition syrm_floor_zero : OptimalLoci := Self 2 4 1 0 (Some 0).

(** A SyRM with a floor of 2 A. *)
Definition syrm_floor_two : OptimalLoci := Self 2 4 1 0 (Some 2).

(** A parameter set with a zero d-axis inductance. *)
Definition pars_zero_L_d : Pars.t := Pars.Build 3 0 1 1 None.

(** A solver with a negative d-axis inductance, which [__init__] builds
    without complaint. *)
Definition negative_L_d : OptimalLoci := Self 1 (-1) 1 1 None.

(** ** Torque and flux of a current vector *)

(** The value that [torque] returns. *)
Definition torque_of (self : OptimalLoci) (i : complex) : R :=
  1.5 * IZR (p self)
  * (psi_f self * imag i + (L_d self - L_q self) * real i * imag i).

(** The squared magnitude of the flux linkage [psi] of a current. *)
Definition flux_sq (self : OptimalLoci) (i : complex) : R :=
  real (psi_spec self i) ^ 2 + imag (psi_spec self i) ^ 2.

(** The squared magnitude of a current. *)
Definition current_sq (i : complex) : R := real i ^ 2 + imag i ^ 2.

(** The current magnitude of the [j]-th MTPA sample of an IPMSM. *)
Definition mtpa_magnitude (i_max : R) (N : Z) (j : nat) : R :=
  INR j * (i_max / IZR (N - 1)).

(** The [j]-th sample of the SyRM branch of [mtpa], before the floor. *)
Definition syrm_sample (i_max : R) (N : Z) (j : nat) : R :=
  INR j * (i_max / sqrt 2 / IZR (N - 1)).

(** An array element with real parts, as a Python complex. *)
Definition finite_point (z : complex128) (i : complex) : Prop :=
  z = C128 (Fin (real i)) (Fin (imag i)).

(** The polar form of a SyRM MTPV point at magnitude [x]. *)
Definition mtpv_syrm_current (self : OptimalLoci) (x : R) : complex :=
  Cplx (x * cos (atan (L_d self / L_q self)))
       (x * sin (atan (L_d self / L_q self))).

(** The IPMSM MTPV point at magnitude [x] in exact arithmetic, when both
    square roots are real. *)
Definition mtpv_current (self : OptimalLoci) (x : R) : complex :=
  Cplx (mtpv_root self x) (sqrt (x ^ 2 - mtpv_root self x ^ 2)).

(** * Properties *)

(** ** Samples of [linspace] *)

Lemma removelast_length {A : Type} (y : list A) :
  length (removelast y) = pred (length y).
Proof.
  rewrite removelast_firstn_len, length_firstn. lia.
Qed.

Lemma set_last_length {A : Type} (y : list A) (v : A) :
  length (set_last y v) = length y.
Proof.
  destruct y as [|a y]; [reflexivity|].
  unfold set_last.
  rewrite length_app, (removelast_length (a :: y)); simpl; lia.
Qed.

Lemma removelast_nth {A : Type} (y : list A) (d : A) (j : nat) :
  (S j < length y)%nat -> nth j (removelast y) d = nth j y d.
Proof.
  revert j; induction y as [|a y IH]; intros j Hj; [simpl in Hj; lia|].
  destruct y as [|b y]; [simpl in Hj; lia|].
  destruct j as [|j]; [reflexivity|].
  change (nth j (removelast (b :: y)) d = nth j (b :: y) d).
  apply IH; simpl in *; lia.
Qed.

Lemma set_last_nth {A : Type} (y : list A) (v d : A) (j : nat) :
  (j < length y)%nat ->
  nth j (set_last y v) d = if Nat.eqb (S j) (length y) then v else nth j y d.
Proof.
  intros Hj.
  destruct y as [|a y]; [simpl in Hj; lia|].
  unfold set_last.
  assert (Hlen : length (removelast (a :: y)) = length y)
    by (rewrite removelast_length; simpl; lia).
  destruct (Nat.eqb_spec (S j) (length (a :: y))) as [E|E].
  - rewrite app_nth2 by (simpl in E; lia).
    replace (j - length (removelast (a :: y)))%nat with 0%nat
      by (simpl in E; lia).
    reflexivity.
  - rewrite app_nth1 by (simpl in Hj, E; lia).
    apply removelast_nth. simpl in *; lia.
Qed.

Lemma nth_map_seq {A : Type} (f : nat -> A) (n j : nat) (d : A) :
  (j < n)%nat -> nth j (map f (seq 0 n)) d = f j.
Proof.
  intros Hj.
  rewrite (nth_indep _ d (f 0%nat)) by (rewrite length_map, length_seq; exact Hj).
  rewrite map_nth, seq_nth by exact Hj. reflexivity.
Qed.

Lemma linspace_samples (start stop : R) (num : Z) :
  (0 <= num)%Z -> linspace start stop num = Ok (samples start stop num).
Proof.
  intros Hnum. unfold linspace, samples, arange.
  destruct (Z.ltb_spec num 0) as [H|_]; [lia|].
  f_equal.
  set (n := Z.to_nat num).
  assert (Hlen : forall f : nat -> R, length (map f (seq 0 n)) = n)
    by (intros f; now rewrite length_map, length_seq).
  assert (Hsample : forall j,
            sample start stop num j
            = if (1 <? num)%Z
              then if Nat.eqb (S j) n then stop
                   else INR j * ((stop - start) / IZR (num - 1)) + start
              else INR j * (stop - start) + start) by reflexivity.
  destruct (Z.ltb_spec 0 (num - 1)) as [H0|H0];
    [destruct (Req_dec_T ((stop - start) / IZR (num - 1)) 0) as [E|E]|];
    destruct (Z.ltb_spec 1 num) as [H1|H1]; try lia;
    repeat rewrite map_map;
    apply (nth_ext _ _ 0 0);
    rewrite ?set_last_length, !Hlen; try reflexivity;
    intros j Hj;
    rewrite (nth_map_seq (sample start stop num)), Hsample by exact Hj;
    destruct (Z.ltb_spec 1 num) as [H1'|H1']; try lia;
    rewrite ?set_last_nth by (rewrite Hlen; exact Hj);
    rewrite ?Hlen;
    try (destruct (Nat.eqb (S j) n); [reflexivity|]);
    rewrite nth_map_seq by exact Hj; try reflexivity.
  (* zero step: [j/(num - 1)*delta] is [j*step] *)
  assert (Hd : IZR (num - 1) <> 0) by (apply not_0_IZR; lia).
  field. exact Hd.
Qed.

Lemma linspace_negative (start stop : R) (num : Z) :
  (num < 0)%Z -> linspace start stop num = Raise ValueError.
Proof.
  intros H. unfold linspace.
  destruct (Z.ltb_spec num 0); [reflexivity|lia].
Qed.

Lemma samples_length (start stop : R) (num : Z) :
  length (samples start stop num) = Z.to_nat num.
Proof. unfold samples. now rewrite length_map, length_seq. Qed.

(** With two samples or more, the samples are evenly spaced: the overwritten
    last one is the value the step formula has there. *)
Lemma sample_linear (start stop : R) (num : Z) (j : nat) :
  (2 <= num)%Z -> (j < Z.to_nat num)%nat ->
  sample start stop num j = start + INR j * ((stop - start) / IZR (num - 1)).
Proof.
  intros Hnum Hj. unfold sample.
  destruct (Z.ltb_spec 1 num) as [_|H]; [|lia].
  destruct (Nat.eqb_spec (S j) (Z.to_nat num)) as [E|_]; [|ring].
  assert (Hd : IZR (num - 1) <> 0) by (apply not_0_IZR; lia).
  replace (INR j) with (IZR (num - 1)).
  - field. exact Hd.
  - rewrite INR_IZR_INZ. f_equal. lia.
Qed.

Lemma sample_first (start stop : R) (num : Z) :
  (2 <= num)%Z -> sample start stop num 0 = start.
Proof.
  intros Hnum. rewrite sample_linear by lia. simpl INR. ring.
Qed.

Lemma sample_last (start stop : R) (num : Z) :
  (2 <= num)%Z -> sample start stop num (Z.to_nat num - 1) = stop.
Proof.
  intros Hnum. unfold sample.
  destruct (Z.ltb_spec 1 num) as [_|H]; [|lia].
  destruct (Nat.eqb_spec (S (Z.to_nat num - 1)) (Z.to_nat num)) as [_|E];
    [reflexivity|lia].
Qed.

(** Between [start <= stop], every sample lies in the interval. *)
Lemma sample_bounds (start stop : R) (num : Z) (j : nat) :
  (2 <= num)%Z -> (j < Z.to_nat num)%nat -> start <= stop ->
  start <= sample start stop num j <= stop.
Proof.
  intros Hnum Hj Hle.
  rewrite sample_linear by assumption.
  assert (Hd : 0 < IZR (num - 1)) by (apply IZR_lt; lia).
  assert (Hj0 : 0 <= INR j) by apply pos_INR.
  assert (Hj1 : INR j <= IZR (num - 1)).
  { rewrite INR_IZR_INZ. apply IZR_le. lia. }
  set (t := INR j / IZR (num - 1)).
  assert (Ht : 0 <= t <= 1).
  { unfold t. split.
    - apply Rmult_le_pos; [exact Hj0|left; now apply Rinv_0_lt_compat].
    - apply (Rmult_le_reg_r (IZR (num - 1))); [exact Hd|].
      unfold Rdiv. rewrite Rmult_assoc, Rinv_l by lra. lra. }
  replace (INR j * ((stop - start) / IZR (num - 1)))
    with (t * (stop - start)) by (unfold t; field; lra).
  nra.
Qed.

(** ** Methods do not write to [self] *)

Lemma readonly_ret {A : Type} (a : A) : readonly (ret a).
Proof. intros self. reflexivity. Qed.

Lemma readonly_raise {A : Type} (e : exn) : readonly (@raise A e).
Proof. intros self. reflexivity. Qed.

Lemma readonly_lift {A : Type} (r : result A) : readonly (lift r).
Proof. intros self. reflexivity. Qed.

Lemma readonly_attr {A : Type} (field : OptimalLoci -> A) :
  readonly (attr field).
Proof. intros self. reflexivity. Qed.

Lemma readonly_attr_i_d_min : readonly attr_i_d_min.
Proof.
  intros self. unfold leaves, attr_i_d_min.
  destruct (i_d_min self); reflexivity.
Qed.

Lemma readonly_bind {A B : Type} (m : M A) (k : A -> M B) :
  readonly m -> (forall a, readonly (k a)) -> readonly (bind m k).
Proof.
  intros Hm Hk self. unfold leaves, bind.
  specialize (Hm self). unfold leaves in Hm.
  destruct (m self) as [[a|e] self']; simpl in Hm; subst self'.
  - apply Hk.
  - reflexivity.
Qed.

Create HintDb readonly.
#[local] Hint Resolve readonly_ret readonly_raise readonly_lift readonly_attr
  readonly_attr_i_d_min : readonly.

Ltac readonly_step :=
  match goal with
  | |- readonly (bind _ _) => apply readonly_bind; [|intros ?]
  | |- readonly (if ?c then _ else _) => destruct c
  | |- readonly (match ?o with Some _ => _ | None => _ end) => destruct o
  | |- readonly _ => solve [auto with readonly]
  end.

Lemma torque_readonly (i : complex) : readonly (torque i).
Proof. unfold torque. repeat readonly_step. Qed.

Lemma mtpa_readonly (i_max : R) (N : Z) : readonly (mtpa i_max N).
Proof. unfold mtpa. repeat readonly_step. Qed.

Lemma mtpv_readonly (rounding : R -> R) (i_max : R) (N : Z) :
  readonly (mtpv rounding i_max N).
Proof. unfold mtpv. repeat readonly_step. Qed.

(** ** The branches of the methods *)

Lemma torque_returns (self : OptimalLoci) (i : complex) :
  returns (torque i) self =
  Ok (1.5 * IZR (p self)
      * imag (PyC.mul i (PyC.conj (flux (L_d self) (L_q self) (psi_f self) i)))).
Proof. reflexivity. Qed.

Lemma mtpa_syrm (self : OptimalLoci) (i_max : R) (N : Z) :
  psi_f self = 0 ->
  returns (mtpa i_max N) self =
  on_ok (linspace 0 (i_max / sqrt 2) N) (fun i_d =>
    match i_d_min self with
    | Some m => Ok (map (mtpa_syrm_point m) i_d)
    | None => Raise AttributeError
    end).
Proof.
  intros Hpsi. unfold returns, mtpa, bind, attr, lift, attr_i_d_min, ret.
  destruct (Req_dec_T (psi_f self) 0) as [_|Hn]; [|contradiction].
  destruct (linspace 0 (i_max / sqrt 2) N) as [i_d|e]; simpl; [|reflexivity].
  destruct (i_d_min self); reflexivity.
Qed.

Lemma mtpa_ipmsm (self : OptimalLoci) (i_max : R) (N : Z) :
  psi_f self <> 0 ->
  returns (mtpa i_max N) self =
  on_ok (linspace 0 i_max N) (fun abs_i =>
    on_ok (py_div (psi_f self) (L_d self - L_q self)) (fun i_a =>
      Ok (map (mtpa_ipmsm_point i_a) abs_i))).
Proof.
  intros Hpsi. unfold returns, mtpa, bind, attr, lift, ret.
  destruct (Req_dec_T (psi_f self) 0) as [E|_]; [contradiction|].
  destruct (linspace 0 i_max N) as [abs_i|e]; simpl; [|reflexivity].
  destruct (py_div (psi_f self) (L_d self - L_q self)); reflexivity.
Qed.

Lemma mtpv_syrm (rounding : R -> R) (self : OptimalLoci) (i_max : R) (N : Z) :
  psi_f self = 0 ->
  returns (mtpv rounding i_max N) self =
  on_ok (linspace 0 i_max N) (fun abs_i =>
    on_ok (py_div (L_d self) (L_q self)) (fun ratio =>
      Ok (map (mtpv_syrm_point (atan ratio)) abs_i))).
Proof.
  intros Hpsi. unfold returns, mtpv, bind, attr, lift, ret.
  destruct (Req_dec_T (psi_f self) 0) as [_|Hn]; [|contradiction].
  destruct (linspace 0 i_max N) as [abs_i|e]; simpl; [|reflexivity].
  destruct (py_div (L_d self) (L_q self)); reflexivity.
Qed.

Lemma mtpv_ipmsm (rounding : R -> R) (self : OptimalLoci) (i_max : R) (N : Z) :
  psi_f self <> 0 ->
  returns (mtpv rounding i_max N) self =
  on_ok (py_div (psi_f self) (L_d self)) (fun knee =>
    if Rlt_dec knee i_max then
      on_ok (linspace knee i_max N) (fun abs_i =>
        on_ok (py_div (L_q self) (L_d self - L_q self)) (fun k =>
          Ok (map (mtpv_ipmsm_point rounding k (L_d self ^ 2 + L_q self ^ 2)
                     ((2 + k) * psi_f self * L_d self)
                     (psi_f self) (L_q self)) abs_i)))
    else Raise UnboundLocalError).
Proof.
  intros Hpsi. unfold returns, mtpv, bind, attr, lift, ret, raise.
  destruct (Req_dec_T (psi_f self) 0) as [E|_]; [contradiction|].
  destruct (py_div (psi_f self) (L_d self)) as [knee|e]; simpl; [|reflexivity].
  destruct (Rlt_dec knee i_max); [|reflexivity].
  destruct (linspace knee i_max N) as [abs_i|e]; simpl; [|reflexivity].
  destruct (py_div (L_q self) (L_d self - L_q self)); reflexivity.
Qed.

Lemma py_div_ok (x y : R) : y <> 0 -> py_div x y = Ok (x / y).
Proof.
  intros Hy. unfold py_div. destruct (Req_dec_T y 0); [contradiction|reflexivity].
Qed.

Lemma py_div_zero (x : R) : py_div x 0 = Raise ZeroDivisionError.
Proof.
  unfold py_div. destruct (Req_dec_T 0 0) as [_|H]; [reflexivity|].
  now contradiction H.
Qed.

(** ** Construction *)

(** C3, counterexample: the parameter set [pars_zero_L_d] has [L_d <= 0],
    yet [__init__] returns a solver; the equivalence between failure with
    [InvalidParameterError] and invalid parameters does not hold there. *)
Lemma init_accepts_zero_inductance :
  invalid_parameters pars_zero_L_d
  /\ __init__ pars_zero_L_d = Ok (Self 3 0 1 1 None)
  /\ ~ (__init__ pars_zero_L_d = Raise InvalidParameterError
        <-> invalid_parameters pars_zero_L_d).
Proof.
  assert (Hinv : invalid_parameters pars_zero_L_d).
  { left. simpl. lra. }
  split; [exact Hinv|]. split; [reflexivity|].
  intros [_ H]. specialize (H Hinv). discriminate H.
Qed.

(** C3, amended: construction checks nothing.  For every parameter set,
    valid or not, [__init__] succeeds and the solver holds the five
    attributes as given ([i_d_min] missing when the parameters lack it); in
    particular it never fails with [InvalidParameterError]. *)
Theorem init_always_succeeds (pars : Pars.t) :
  __init__ pars =
    Ok (Self (Pars.p pars) (Pars.L_d pars) (Pars.L_q pars) (Pars.psi_f pars)
             (Pars.i_d_min pars))
  /\ __init__ pars <> Raise InvalidParameterError.
Proof.
  unfold __init__.
  destruct (Pars.i_d_min pars); split; try reflexivity; discriminate.
Qed.

(** ** Torque *)

Lemma flux_psi_spec (self : OptimalLoci) (i : complex) :
  flux (L_d self) (L_q self) (psi_f self) i = psi_spec self i.
Proof.
  unfold flux, psi_spec, PyC.add, PyC.mul, PyC.of_float, PyC.j. simpl.
  f_equal; ring.
Qed.

(** C6: [torque(i)] is [1.5 * p * Im(i * conj(psi))] with
    [psi = L_d*Re(i) + j*L_q*Im(i) + psi_f], which in components is
    [1.5 * p * (psi_f*i_q + (L_d - L_q)*i_d*i_q)]; at [i = 0] it is 0. *)
Theorem torque_formula (self : OptimalLoci) (i : complex) :
  returns (torque i) self =
    Ok (1.5 * IZR (p self) * imag (PyC.mul i (PyC.conj (psi_spec self i))))
  /\ returns (torque i) self =
    Ok (1.5 * IZR (p self)
        * (psi_f self * imag i + (L_d self - L_q self) * real i * imag i))
  /\ returns (torque (Cplx 0 0)) self = Ok 0.
Proof.
  rewrite !torque_returns, !flux_psi_spec.
  unfold psi_spec, PyC.mul, PyC.conj. simpl.
  repeat split; f_equal; ring.
Qed.

(** ** Array elements *)

Lemma mk_current_fin (d q : R) :
  mk_current (Fin d) (Fin q) = C128 (Fin d) (Fin q).
Proof.
  unfold mk_current, C.add, C.mul, C.of_float, C.j. simpl.
  f_equal; f_equal; ring.
Qed.

(** NaN in [i_q] spreads to both parts through [1j*i_q]. *)
Lemma mk_current_nan (d : float64) : mk_current d NaN = C128 NaN NaN.
Proof. destruct d; reflexivity. Qed.

Lemma F_sqrt_nonneg (a : R) : 0 <= a -> F.sqrt (Fin a) = Fin (sqrt a).
Proof.
  intros Ha. unfold F.sqrt. destruct (Rlt_dec a 0); [lra|reflexivity].
Qed.

Lemma F_sqrt_negative (a : R) : a < 0 -> F.sqrt (Fin a) = NaN.
Proof.
  intros Ha. unfold F.sqrt. destruct (Rlt_dec a 0); [reflexivity|lra].
Qed.

Lemma sqrt_square_eq (s v : R) : 0 <= v -> s = v * v -> sqrt s = v.
Proof. intros Hv ->. now apply sqrt_square. Qed.

(** The modulus of an element with real parts [d] and [sqrt (x^2 - d^2)]. *)
Lemma abs_of_parts (x d : R) :
  0 <= x -> d ^ 2 <= x ^ 2 ->
  C.abs (C128 (Fin d) (Fin (sqrt (x ^ 2 - d ^ 2)))) = Fin x.
Proof.
  intros Hx Hd. unfold C.abs, F.sq, F.add, F.mul, F.lift2. cbn [re128 im128].
  assert (Hq : sqrt (x ^ 2 - d ^ 2) * sqrt (x ^ 2 - d ^ 2) = x ^ 2 - d ^ 2)
    by (apply sqrt_sqrt; lra).
  rewrite F_sqrt_nonneg by nra.
  f_equal. apply sqrt_square_eq; [exact Hx|]. rewrite Hq. ring.
Qed.

(** ** SyRM: the MTPA locus *)

(** The floor of the SyRM branch is a maximum. *)
Lemma syrm_floor (m x : R) :
  b2R (Rltb x m) * m + b2R (Rgeb x m) * x = if Rlt_dec x m then m else x.
Proof.
  unfold Rltb, Rgeb, b2R.
  destruct (Rlt_dec x m), (Rge_dec x m); lra.
Qed.

Lemma mtpa_syrm_point_eq (m x : R) :
  mtpa_syrm_point m x = C128 (Fin (if Rlt_dec x m then m else x)) (Fin x).
Proof.
  unfold mtpa_syrm_point. now rewrite mk_current_fin, syrm_floor.
Qed.

Lemma nth_map_samples {B : Type} (f : R -> B) (start stop : R) (num : Z)
  (j : nat) (d : B) :
  (j < Z.to_nat num)%nat ->
  nth j (map f (samples start stop num)) d = f (sample start stop num j).
Proof.
  intros Hj. unfold samples. rewrite map_map.
  now rewrite (nth_map_seq (fun n => f (sample start stop num n))).
Qed.

Lemma sqrt2_pos : 0 < sqrt 2.
Proof. apply sqrt_lt_R0. lra. Qed.

(** C2, counterexample: on a SyRM solver without [i_d_min], [mtpa(10, 4)]
    raises [AttributeError]; it returns no sequence at all. *)
Lemma mtpa_syrm_no_floor_raises :
  psi_f syrm_no_floor = 0 /\ i_d_min syrm_no_floor = None
  /\ returns (mtpa 10 4) syrm_no_floor = Raise AttributeError
  /\ ~ (exists locus, returns (mtpa 10 4) syrm_no_floor = Ok locus
                      /\ length locus = 4%nat).
Proof.
  assert (H : returns (mtpa 10 4) syrm_no_floor = Raise AttributeError).
  { rewrite mtpa_syrm by reflexivity.
    rewrite linspace_samples by lia. reflexivity. }
  repeat split; try reflexivity; [exact H|].
  intros [locus [Hl _]]. rewrite H in Hl. discriminate Hl.
Qed.

(** C2, amended: on a SyRM solver ([psi_f == 0]) without [i_d_min], and for
    every [i_max] and [N >= 0], [mtpa] raises [AttributeError]: the floor is
    applied unconditionally and reads the attribute.  The locus without a
    floor is what a SyRM solver returns whose [i_d_min] is present and not
    above 0: for [i_max > 0] and [N >= 2], [N] points with [i_d == i_q],
    sampled linearly from 0 to [i_max/sqrt(2)]. *)
Theorem mtpa_syrm_needs_i_d_min
  (self : OptimalLoci) (i_max : R) (N : Z) :
  psi_f self = 0 ->
  (i_d_min self = None -> (0 <= N)%Z ->
   returns (mtpa i_max N) self = Raise AttributeError)
  /\ (forall m, i_d_min self = Some m -> m <= 0 -> 0 < i_max -> (2 <= N)%Z ->
      exists locus,
        returns (mtpa i_max N) self = Ok locus
        /\ length locus = Z.to_nat N
        /\ (forall j, (j < Z.to_nat N)%nat ->
            let x := INR j * (i_max / sqrt 2 / IZR (N - 1)) in
            nth j locus (C128 NaN NaN) = C128 (Fin x) (Fin x))
        /\ nth (Z.to_nat N - 1) locus (C128 NaN NaN)
           = C128 (Fin (i_max / sqrt 2)) (Fin (i_max / sqrt 2))).
Proof.
  intros Hpsi. split.
  - intros Hnone HN. rewrite mtpa_syrm by exact Hpsi.
    rewrite linspace_samples by exact HN. simpl. now rewrite Hnone.
  - intros m Hm Hle Himax HN.
    rewrite mtpa_syrm by exact Hpsi.
    rewrite linspace_samples by lia. simpl. rewrite Hm.
    eexists. split; [reflexivity|].
    pose proof sqrt2_pos as H2.
    assert (Hstop : 0 <= i_max / sqrt 2).
    { apply Rmult_le_pos; [lra|]. left. now apply Rinv_0_lt_compat. }
    assert (Hpt : forall j, (j < Z.to_nat N)%nat ->
              nth j (map (mtpa_syrm_point m) (samples 0 (i_max / sqrt 2) N))
                  (C128 NaN NaN)
              = C128 (Fin (sample 0 (i_max / sqrt 2) N j))
                     (Fin (sample 0 (i_max / sqrt 2) N j))).
    { intros j Hj. rewrite nth_map_samples by exact Hj.
      rewrite mtpa_syrm_point_eq.
      pose proof (sample_bounds 0 (i_max / sqrt 2) N j HN Hj Hstop) as Hb.
      destruct (Rlt_dec (sample 0 (i_max / sqrt 2) N j) m); [lra|reflexivity]. }
    split; [now rewrite length_map, samples_length|]. split.
    + intros j Hj. rewrite Hpt by exact Hj.
      rewrite sample_linear by assumption.
      do 2 f_equal; unfold Rdiv; ring.
    + rewrite Hpt by lia. now rewrite sample_last by exact HN.
Qed.

(** Both parts of the statement above, at concrete solvers. *)
Lemma mtpa_syrm_needs_i_d_min_witness :
  (psi_f syrm_no_floor = 0
   /\ returns (mtpa 10 4) syrm_no_floor = Raise AttributeError)
  /\ (psi_f syrm_floor_zero = 0
      /\ exists locus, returns (mtpa 10 4) syrm_floor_zero = Ok locus
                       /\ length locus = 4%nat).
Proof.
  split; split; try reflexivity.
  - apply (mtpa_syrm_needs_i_d_min syrm_no_floor 10 4);
      [reflexivity|reflexivity|lia].
  - destruct (proj2 (mtpa_syrm_needs_i_d_min syrm_floor_zero 10 4 eq_refl)
                0 eq_refl ltac:(lra) ltac:(lra) ltac:(lia))
      as [locus [Hr [Hl _]]].
    exists locus. split; assumption.
Defined.

(** C8: on a SyRM solver with [i_d_min] present, [mtpa] returns [N] points;
    at each index the imaginary part is the linear sample, the real part is
    [i_d_min] where the sample is below it and the sample otherwise, so no
    element is dropped and every real part is at least [i_d_min]. *)
Theorem mtpa_syrm_floor
  (self : OptimalLoci) (i_max : R) (N : Z) (m : R) :
  psi_f self = 0 -> i_d_min self = Some m -> 0 < i_max -> (2 <= N)%Z ->
  exists locus,
    returns (mtpa i_max N) self = Ok locus
    /\ length locus = Z.to_nat N
    /\ forall j, (j < Z.to_nat N)%nat ->
       exists i_d,
         nth j locus (C128 NaN NaN)
         = C128 (Fin i_d) (Fin (INR j * (i_max / sqrt 2 / IZR (N - 1))))
         /\ (INR j * (i_max / sqrt 2 / IZR (N - 1)) < m -> i_d = m)
         /\ (m <= INR j * (i_max / sqrt 2 / IZR (N - 1)) ->
             i_d = INR j * (i_max / sqrt 2 / IZR (N - 1)))
         /\ m <= i_d.
Proof.
  intros Hpsi Hm Himax HN.
  rewrite mtpa_syrm by exact Hpsi.
  rewrite linspace_samples by lia. cbn [on_ok]. rewrite Hm.
  eexists. split; [reflexivity|].
  split; [now rewrite length_map, samples_length|].
  intros j Hj. rewrite nth_map_samples by exact Hj.
  rewrite mtpa_syrm_point_eq, sample_linear by assumption.
  replace (0 + INR j * ((i_max / sqrt 2 - 0) / IZR (N - 1)))
    with (INR j * (i_max / sqrt 2 / IZR (N - 1))) by (unfold Rdiv; ring).
  set (x := INR j * (i_max / sqrt 2 / IZR (N - 1))).
  exists (if Rlt_dec x m then m else x).
  split; [reflexivity|].
  destruct (Rlt_dec x m); repeat split; intros; lra.
Qed.

Lemma mtpa_syrm_floor_witness :
  exists locus, returns (mtpa 10 4) syrm_floor_two = Ok locus
                /\ length locus = 4%nat.
Proof.
  destruct (mtpa_syrm_floor syrm_floor_two 10 4 2 eq_refl eq_refl
              ltac:(lra) ltac:(lia)) as [locus [Hr [Hl _]]].
  exists locus. split; assumption.
Defined.

(** ** Arguments are not checked *)

Lemma linspace_cases (start stop : R) (N : Z) :
  ((N < 0)%Z /\ linspace start stop N = Raise ValueError)
  \/ ((0 <= N)%Z /\ linspace start stop N = Ok (samples start stop N)).
Proof.
  destruct (Z.lt_ge_cases N 0) as [H|H].
  - left. split; [exact H|now apply linspace_negative].
  - right. split; [exact H|now apply linspace_samples].
Qed.

Lemma mtpa_outcome_holds (self : OptimalLoci) (i_max : R) (N : Z) :
  mtpa_outcome self N (returns (mtpa i_max N) self).
Proof.
  destruct (Req_dec_T (psi_f self) 0) as [Hpsi|Hpsi].
  - rewrite mtpa_syrm by exact Hpsi.
    destruct (linspace_cases 0 (i_max / sqrt 2) N) as [[HN ->]|[HN ->]];
      cbn [on_ok mtpa_outcome]; [exact HN|].
    destruct (i_d_min self) eqn:Hm; cbn [mtpa_outcome].
    + split; [exact HN|now rewrite length_map, samples_length].
    + auto.
  - rewrite mtpa_ipmsm by exact Hpsi.
    destruct (linspace_cases 0 i_max N) as [[HN ->]|[HN ->]];
      cbn [on_ok mtpa_outcome]; [exact HN|].
    destruct (Req_dec_T (L_d self) (L_q self)) as [E|E].
    + replace (L_d self - L_q self) with 0 by lra.
      rewrite py_div_zero. cbn [on_ok mtpa_outcome]. auto.
    + rewrite py_div_ok by lra. cbn [on_ok mtpa_outcome].
      split; [exact HN|now rewrite length_map, samples_length].
Qed.

Lemma mtpv_outcome_holds (rounding : R -> R)
  (self : OptimalLoci) (i_max : R) (N : Z) :
  L_d self <> 0 -> L_q self <> 0 ->
  mtpv_outcome self i_max N (returns (mtpv rounding i_max N) self).
Proof.
  intros Hd Hq.
  destruct (Req_dec_T (psi_f self) 0) as [Hpsi|Hpsi].
  - rewrite mtpv_syrm by exact Hpsi.
    destruct (linspace_cases 0 i_max N) as [[HN ->]|[HN ->]];
      cbn [on_ok mtpv_outcome]; [auto|].
    rewrite py_div_ok by exact Hq. cbn [on_ok mtpv_outcome].
    split; [exact HN|]. split; [now rewrite length_map, samples_length|auto].
  - rewrite mtpv_ipmsm by exact Hpsi.
    rewrite py_div_ok by exact Hd. cbn [on_ok].
    destruct (Rlt_dec (psi_f self / L_d self) i_max) as [Hk|Hk];
      [|cbn [mtpv_outcome]; split; [exact Hpsi|lra]].
    destruct (linspace_cases (psi_f self / L_d self) i_max N)
      as [[HN ->]|[HN ->]]; cbn [on_ok mtpv_outcome]; [auto|].
    destruct (Req_dec_T (L_d self) (L_q self)) as [E|E].
    + replace (L_d self - L_q self) with 0 by lra.
      rewrite py_div_zero. cbn [on_ok mtpv_outcome]. auto.
    + rewrite py_div_ok by lra. cbn [on_ok mtpv_outcome].
      split; [exact HN|]. split; [now rewrite length_map, samples_length|auto].
Qed.

Lemma ipmsm_valid : valid ipmsm.
Proof. unfold valid, ipmsm. simpl. repeat split; try lra; lia. Qed.

(** C4, counterexample: on the valid solver [ipmsm], [mtpa(-1, 5)] returns
    five points and [mtpa(1, 1)] returns one point, although [i_max <= 0] in
    the first call and [N < 2] in the second. *)
Lemma mtpa_accepts_bad_arguments :
  valid ipmsm
  /\ (exists locus, returns (mtpa (-1) 5) ipmsm = Ok locus
                    /\ length locus = 5%nat)
  /\ (exists locus, returns (mtpa 1 1) ipmsm = Ok locus
                    /\ length locus = 1%nat)
  /\ ~ (-1 <= 0 \/ (5 < 2)%Z ->
        returns (mtpa (-1) 5) ipmsm = Raise InvalidArgumentError).
Proof.
  assert (H5 : exists locus, returns (mtpa (-1) 5) ipmsm = Ok locus
                             /\ length locus = 5%nat).
  { rewrite mtpa_ipmsm by (simpl; lra).
    rewrite linspace_samples by lia. cbn [on_ok].
    rewrite py_div_ok by (simpl; lra). cbn [on_ok].
    eexists. split; [reflexivity|].
    now rewrite length_map, samples_length. }
  split; [exact ipmsm_valid|]. split; [exact H5|]. split.
  - rewrite mtpa_ipmsm by (simpl; lra).
    rewrite linspace_samples by lia. cbn [on_ok].
    rewrite py_div_ok by (simpl; lra). cbn [on_ok].
    eexists. split; [reflexivity|].
    now rewrite length_map, samples_length.
  - intros H. destruct H5 as [locus [Hr _]].
    rewrite H in Hr by (left; lra). discriminate Hr.
Qed.

(** C4, amended: [mtpa] and [mtpv] check neither [i_max] nor [N], and never
    fail with [InvalidArgumentError].  On a valid solver, with [i_max <= 0]
    or [N < 2], a call either returns a complete locus of exactly [N] points
    ([N >= 0]; for [mtpv] on an IPMSM only when [psi_f/L_d < i_max]), or
    raises [ValueError] ([N < 0], from [np.linspace]), [AttributeError]
    ([mtpa] on a SyRM without [i_d_min]), [ZeroDivisionError] (IPMSM with
    [L_d == L_q]) or [UnboundLocalError] ([mtpv] on an IPMSM with
    [psi_f/L_d >= i_max]); a partial locus is never returned. *)
Theorem arguments_are_not_checked (rounding : R -> R)
  (self : OptimalLoci) (i_max : R) (N : Z) :
  valid self -> i_max <= 0 \/ (N < 2)%Z ->
  returns (mtpa i_max N) self <> Raise InvalidArgumentError
  /\ returns (mtpv rounding i_max N) self <> Raise InvalidArgumentError
  /\ mtpa_outcome self N (returns (mtpa i_max N) self)
  /\ mtpv_outcome self i_max N (returns (mtpv rounding i_max N) self).
Proof.
  intros [Hd [Hq _]] _.
  pose proof (mtpa_outcome_holds self i_max N) as Ha.
  pose proof (mtpv_outcome_holds rounding self i_max N ltac:(lra) ltac:(lra))
    as Hv.
  repeat split; try assumption.
  - intros E. rewrite E in Ha. exact Ha.
  - intros E. rewrite E in Hv. exact Hv.
Qed.

Lemma arguments_are_not_checked_witness :
  valid ipmsm /\ (-1 <= 0 \/ (5 < 2)%Z)
  /\ returns (mtpa (-1) 5) ipmsm <> Raise InvalidArgumentError
  /\ returns (mtpv no_rounding (-1) 5) ipmsm <> Raise InvalidArgumentError.
Proof.
  assert (Hv : valid ipmsm).
  { unfold valid, ipmsm. simpl. repeat split; try lra; lia. }
  assert (Ha : -1 <= 0 \/ (5 < 2)%Z) by (left; lra).
  split; [exact Hv|]. split; [exact Ha|].
  destruct (arguments_are_not_checked no_rounding ipmsm (-1) 5 Hv Ha)
    as [H1 [H2 _]].
  split; assumption.
Defined.

(** ** IPMSM: the MTPA locus *)

(** The two square roots of the IPMSM branch of [mtpa], for [i_a < 0]. *)
Lemma mtpa_ipmsm_parts (i_a x : R) :
  i_a < 0 ->
  exists d q,
    mtpa_ipmsm_i_d i_a x = Fin d
    /\ mtpa_ipmsm_i_q i_a x = Fin q
    /\ d = - i_a / 4 - sqrt (i_a ^ 2 / 16 + x ^ 2 / 2)
    /\ q = sqrt (x ^ 2 - d ^ 2)
    /\ d <= 0 /\ d ^ 2 <= x ^ 2.
Proof.
  intros Hia.
  set (r := i_a ^ 2 / 16 + x ^ 2 / 2).
  assert (Hr : 0 <= r) by (unfold r; nra).
  pose proof (sqrt_pos r) as Hs0.
  pose proof (sqrt_sqrt r Hr) as Hs.
  set (s := sqrt r) in *.
  assert (Hge : - i_a / 4 <= s) by (unfold r in Hs; nra).
  assert (Hd2 : (- i_a / 4 - s) ^ 2 <= x ^ 2) by (unfold r in Hs; nra).
  exists (- i_a / 4 - s), (sqrt (x ^ 2 - (- i_a / 4 - s) ^ 2)).
  unfold mtpa_ipmsm_i_q, mtpa_ipmsm_i_d. fold r.
  rewrite F_sqrt_nonneg by exact Hr. fold s.
  unfold F.sq, F.sub, F.mul, F.lift2.
  rewrite F_sqrt_nonneg by nra.
  repeat split; try reflexivity; try lra.
  do 2 f_equal. ring.
Qed.

(** At [|i| = 0] the MTPA point is the origin. *)
Lemma mtpa_ipmsm_point_origin (i_a : R) :
  i_a < 0 -> mtpa_ipmsm_point i_a 0 = C128 (Fin 0) (Fin 0).
Proof.
  intros Hia.
  destruct (mtpa_ipmsm_parts i_a 0 Hia) as [d [q [Hd [Hq [_ [Eq [Hle Hsq]]]]]]].
  unfold mtpa_ipmsm_point. rewrite Hd, Hq, mk_current_fin.
  assert (Hd0 : d = 0) by nra.
  rewrite Hd0 in Eq |- *.
  replace (0 ^ 2 - 0 ^ 2) with 0 in Eq by ring.
  rewrite sqrt_0 in Eq. now rewrite Eq.
Qed.

(** C10: on an IPMSM solver with [psi_f > 0] and [L_d < L_q], [mtpa] returns
    [N] points; at each index [i_d <= 0] and [i_d^2 <= |i|^2], so that
    [i_q = sqrt(|i|^2 - i_d^2)] is the square root of a non-negative number
    and no part is NaN; the point at index 0 is the origin. *)
Theorem mtpa_ipmsm_sqrt_domain
  (self : OptimalLoci) (i_max : R) (N : Z) :
  0 < psi_f self -> L_d self < L_q self -> 0 < i_max -> (2 <= N)%Z ->
  exists locus,
    returns (mtpa i_max N) self = Ok locus
    /\ length locus = Z.to_nat N
    /\ (forall j, (j < Z.to_nat N)%nat ->
        exists i_d i_q,
          nth j locus (C128 NaN NaN) = C128 (Fin i_d) (Fin i_q)
          /\ i_d = - (psi_f self / (L_d self - L_q self)) / 4
                   - sqrt ((psi_f self / (L_d self - L_q self)) ^ 2 / 16
                           + (INR j * (i_max / IZR (N - 1))) ^ 2 / 2)
          /\ i_q = sqrt ((INR j * (i_max / IZR (N - 1))) ^ 2 - i_d ^ 2)
          /\ i_d <= 0
          /\ 0 <= (INR j * (i_max / IZR (N - 1))) ^ 2 - i_d ^ 2)
    /\ nth 0 locus (C128 NaN NaN) = C128 (Fin 0) (Fin 0).
Proof.
  intros Hpsi Hlt Himax HN.
  assert (Hia : psi_f self / (L_d self - L_q self) < 0).
  { apply Ropp_lt_cancel. rewrite Ropp_0.
    replace (- (psi_f self / (L_d self - L_q self)))
      with (psi_f self / (L_q self - L_d self)) by (field; lra).
    apply Rdiv_lt_0_compat; lra. }
  rewrite mtpa_ipmsm by lra.
  rewrite linspace_samples by lia. cbn [on_ok].
  rewrite py_div_ok by lra. cbn [on_ok].
  eexists. split; [reflexivity|].
  split; [now rewrite length_map, samples_length|]. split.
  - intros j Hj. rewrite nth_map_samples by exact Hj.
    rewrite sample_linear by assumption.
    replace (0 + INR j * ((i_max - 0) / IZR (N - 1)))
      with (INR j * (i_max / IZR (N - 1))) by (unfold Rdiv; ring).
    destruct (mtpa_ipmsm_parts (psi_f self / (L_d self - L_q self))
                (INR j * (i_max / IZR (N - 1))) Hia)
      as [d [q [Hd [Hq [Ed [Eq [Hle Hsq]]]]]]].
    exists d, q. unfold mtpa_ipmsm_point.
    rewrite Hd, Hq, mk_current_fin.
    repeat split; try assumption; lra.
  - rewrite nth_map_samples by lia.
    rewrite sample_first by exact HN.
    now apply mtpa_ipmsm_point_origin.
Qed.

Lemma mtpa_ipmsm_sqrt_domain_witness :
  exists locus,
    returns (mtpa 2 5) ipmsm = Ok locus
    /\ length locus = 5%nat
    /\ nth 0 locus (C128 NaN NaN) = C128 (Fin 0) (Fin 0).
Proof.
  destruct (mtpa_ipmsm_sqrt_domain ipmsm 2 5) as [locus [Hr [Hl [_ H0]]]].
  - simpl. lra.
  - simpl. lra.
  - lra.
  - lia.
  - exists locus. repeat split; assumption.
Defined.

(** ** IPMSM: the MTPV locus *)

(** [2*a] is not zero once [psi_f/L_d] has been computed. *)
Lemma mtpv_divisor_nonzero (self : OptimalLoci) :
  L_d self <> 0 -> 2 * mtpv_a self <> 0.
Proof.
  intros Hd. unfold mtpv_a.
  destruct (Rdichotomy _ _ Hd); nra.
Qed.

(** Below the knee, [return i] finds [i] unbound. *)
Lemma mtpv_below_knee (rounding : R -> R)
  (self : OptimalLoci) (i_max : R) (N : Z) :
  psi_f self <> 0 -> L_d self <> 0 -> i_max <= psi_f self / L_d self ->
  returns (mtpv rounding i_max N) self = Raise UnboundLocalError.
Proof.
  intros Hpsi Hd Hknee.
  rewrite mtpv_ipmsm by exact Hpsi.
  rewrite py_div_ok by exact Hd. cbn [on_ok].
  destruct (Rlt_dec (psi_f self / L_d self) i_max); [lra|reflexivity].
Qed.

Lemma mtpv_above_knee (rounding : R -> R)
  (self : OptimalLoci) (i_max : R) (N : Z) :
  psi_f self <> 0 -> L_d self <> 0 -> L_d self <> L_q self ->
  psi_f self / L_d self < i_max -> (0 <= N)%Z ->
  returns (mtpv rounding i_max N) self =
  Ok (map (mtpv_element rounding self)
          (samples (psi_f self / L_d self) i_max N)).
Proof.
  intros Hpsi Hd Hdq Hknee HN.
  rewrite mtpv_ipmsm by exact Hpsi.
  rewrite py_div_ok by exact Hd. cbn [on_ok].
  destruct (Rlt_dec (psi_f self / L_d self) i_max); [|lra].
  rewrite linspace_samples by exact HN. cbn [on_ok].
  rewrite py_div_ok by lra. reflexivity.
Qed.

(** C1, the code at a failing input: on the valid IPMSM solver
    [ipmsm_example], whose [psi_f/L_d] is above 15, [mtpv(10, 5)] raises
    [UnboundLocalError]; it does not return the empty locus. *)
Theorem mtpv_below_knee_raises (rounding : R -> R) :
  valid ipmsm_example
  /\ 0 < psi_f ipmsm_example
  /\ psi_f ipmsm_example / L_d ipmsm_example >= 10
  /\ returns (mtpv rounding 10 5) ipmsm_example = Raise UnboundLocalError
  /\ returns (mtpv rounding 10 5) ipmsm_example <> Ok [].
Proof.
  assert (Hr : returns (mtpv rounding 10 5) ipmsm_example
               = Raise UnboundLocalError).
  { apply mtpv_below_knee; simpl; lra. }
  unfold valid. simpl.
  repeat split; try lra; try lia; [exact Hr|].
  rewrite Hr. discriminate.
Qed.

(** The discriminant is a square plus a term that grows with [|i|^2]. *)
Lemma discriminant_split (self : OptimalLoci) (abs_i : R) :
  L_d self <> 0 ->
  discriminant self abs_i =
    (mtpv_b self - 2 * mtpv_a self * (psi_f self / L_d self)) ^ 2
    + 4 * mtpv_a self * L_q self ^ 2
      * (abs_i ^ 2 - (psi_f self / L_d self) ^ 2).
Proof.
  intros Hd. unfold discriminant, mtpv_disc, mtpv_c, mtpv_b, mtpv_a.
  generalize (mtpv_k self). intros k. field. exact Hd.
Qed.

(** From the knee upwards the discriminant is not negative. *)
Lemma discriminant_nonneg (self : OptimalLoci) (abs_i : R) :
  0 < L_d self -> 0 <= psi_f self -> psi_f self / L_d self <= abs_i ->
  0 <= discriminant self abs_i.
Proof.
  intros Hd Hpsi Hx.
  rewrite discriminant_split by lra.
  assert (Hu : 0 <= psi_f self / L_d self).
  { apply Rmult_le_pos; [exact Hpsi|]. left. now apply Rinv_0_lt_compat. }
  set (u := psi_f self / L_d self) in *.
  assert (Ha : 0 <= mtpv_a self) by (unfold mtpv_a; nra).
  assert (Hq : 0 <= L_q self ^ 2) by nra.
  assert (Hx2 : 0 <= abs_i ^ 2 - u ^ 2) by nra.
  assert (H4 : 0 <= 4 * mtpv_a self * L_q self ^ 2) by nra.
  pose proof (pow2_ge_0 (mtpv_b self - 2 * mtpv_a self * u)).
  nra.
Qed.

(** A negative discriminant makes the whole element NaN. *)
Lemma mtpv_element_nan (rounding : R -> R) (self : OptimalLoci) (abs_i : R) :
  discriminant self abs_i < 0 ->
  mtpv_element rounding self abs_i = C128 NaN NaN.
Proof.
  intros Hneg.
  unfold mtpv_element, mtpv_ipmsm_point, mtpv_i_d. fold (discriminant self abs_i).
  rewrite F_sqrt_negative by exact Hneg.
  reflexivity.
Qed.

(** With a non-negative discriminant [i_d] is the root with the minus
    sign, and [i_q] the square root of the computed [|i|^2 - i_d^2]. *)
Lemma mtpv_element_root (rounding : R -> R) (self : OptimalLoci) (abs_i : R) :
  0 <= discriminant self abs_i ->
  mtpv_element rounding self abs_i =
  mk_current (Fin (mtpv_root self abs_i))
             (F.sqrt (Fin (mtpv_difference rounding self abs_i))).
Proof.
  intros Hpos.
  unfold mtpv_element, mtpv_ipmsm_point, mtpv_i_q, mtpv_i_d.
  fold (discriminant self abs_i).
  rewrite F_sqrt_nonneg by exact Hpos.
  unfold F.sq, F.add, F.sub, F.mul, F.div, F.lift2, mtpv_root,
    mtpv_difference.
  do 4 f_equal. unfold mtpv_root. ring.
Qed.

(** The sign of the computed difference decides between a real [i_q] and a
    NaN point. *)
Lemma mtpv_element_cases (rounding : R -> R) (self : OptimalLoci)
  (abs_i : R) :
  0 <= discriminant self abs_i ->
  (mtpv_difference rounding self abs_i < 0 ->
   mtpv_element rounding self abs_i = C128 NaN NaN)
  /\ (0 <= mtpv_difference rounding self abs_i ->
      mtpv_element rounding self abs_i
      = C128 (Fin (mtpv_root self abs_i))
             (Fin (sqrt (mtpv_difference rounding self abs_i)))).
Proof.
  intros HD. rewrite mtpv_element_root by exact HD. split; intros H.
  - rewrite F_sqrt_negative by exact H. apply mk_current_nan.
  - rewrite F_sqrt_nonneg by exact H. apply mk_current_fin.
Qed.

(** On a machine with [L_d < L_q] the root with the minus sign lies between
    [-|i|] and 0 from the knee upwards. *)
Lemma mtpv_root_bounds (self : OptimalLoci) (x : R) :
  0 < L_d self -> L_d self < L_q self -> 0 < psi_f self ->
  psi_f self / L_d self <= x ->
  - x <= mtpv_root self x <= 0.
Proof.
  intros Hd Hdq Hpsi Hx.
  assert (HD : 0 <= discriminant self x)
    by (apply discriminant_nonneg; lra).
  pose proof (sqrt_pos (discriminant self x)) as Hs0.
  pose proof (sqrt_sqrt _ HD) as Hs.
  unfold mtpv_root.
  set (s := sqrt (discriminant self x)) in *.
  unfold discriminant, mtpv_disc, mtpv_c in Hs.
  assert (Hk : mtpv_k self * (L_d self - L_q self) = L_q self)
    by (unfold mtpv_k; field; lra).
  assert (Hb : mtpv_b self = (2 + mtpv_k self) * psi_f self * L_d self)
    by reflexivity.
  assert (Ha : mtpv_a self = L_d self ^ 2 + L_q self ^ 2) by reflexivity.
  set (k := mtpv_k self) in *. set (a := mtpv_a self) in *.
  set (b := mtpv_b self) in *.
  set (Ld := L_d self) in *. set (Lq := L_q self) in *.
  set (psi := psi_f self) in *.
  assert (Hx' : psi <= Ld * x).
  { apply (Rmult_le_compat_r Ld) in Hx; [|lra].
    unfold Rdiv in Hx. rewrite Rmult_assoc, Rinv_l in Hx by lra. lra. }
  assert (Hm : (1 + k) * (Ld - Lq) = Ld) by lra.
  assert (Hm0 : 1 + k < 0) by nra.
  assert (Hapos : 0 < a) by nra.
  assert (Hx0 : 0 < x) by nra.
  assert (Hc : (1 + k) * psi ^ 2 - (Lq * x) ^ 2 <= 0) by nra.
  assert (Hsb : s * s >= b * b) by nra.
  assert (F2 : - s <= b <= s) by nra.
  assert (Hmpsi : (1 + k) * psi <= 0) by nra.
  assert (Hbound : b <= psi * Ld) by (rewrite Hb; nra).
  assert (F4 : 0 <= 2 * a * x - b) by (rewrite Ha in *; nra).
  assert (F3' : (2 * a * x - b) ^ 2 - s * s
                = 4 * a * ((Ld * x - psi) * (Ld * x - (1 + k) * psi))).
  { rewrite Hs, Hb, Ha. ring. }
  assert (F3 : s <= 2 * a * x - b).
  { assert (0 <= (Ld * x - psi) * (Ld * x - (1 + k) * psi)) by nra.
    assert (0 <= (2 * a * x - b) ^ 2 - s * s) by (rewrite F3'; nra).
    nra. }
  assert (H2a : 0 < 2 * a) by lra.
  split.
  - apply (Rmult_le_reg_r (2 * a)); [exact H2a|].
    unfold Rdiv. rewrite Rmult_assoc, Rinv_l by lra. lra.
  - apply (Rmult_le_reg_r (2 * a)); [exact H2a|].
    unfold Rdiv. rewrite Rmult_assoc, Rinv_l by lra. lra.
Qed.

(** From the knee upwards the root with the minus sign is at most
    [-psi_f/L_d]: the d-axis flux [L_d*i_d + psi_f] is not positive. *)
Lemma mtpv_root_below_knee (self : OptimalLoci) (x : R) :
  0 < L_d self -> 0 <= psi_f self -> psi_f self / L_d self <= x ->
  mtpv_root self x <= - (psi_f self / L_d self).
Proof.
  intros Hd Hpsi Hx.
  assert (HD : 0 <= discriminant self x) by (now apply discriminant_nonneg).
  pose proof (sqrt_pos (discriminant self x)) as Hs0.
  pose proof (sqrt_sqrt _ HD) as Hs.
  pose proof (discriminant_split self x ltac:(lra)) as Hsplit.
  unfold mtpv_root.
  set (s := sqrt (discriminant self x)) in *.
  set (D := discriminant self x) in *.
  assert (Hu : 0 <= psi_f self / L_d self).
  { apply Rmult_le_pos; [exact Hpsi|]. left. now apply Rinv_0_lt_compat. }
  set (u := psi_f self / L_d self) in *.
  assert (Ha : 0 < mtpv_a self) by (unfold mtpv_a; nra).
  set (a := mtpv_a self) in *. set (b := mtpv_b self) in *.
  assert (Hq : 0 <= 4 * a * L_q self ^ 2 * (x ^ 2 - u ^ 2)).
  { apply Rmult_le_pos; [|nra].
    apply Rmult_le_pos; [lra|apply pow2_ge_0]. }
  assert (Hle : 2 * a * u - b <= s).
  { destruct (Rle_dec (2 * a * u - b) 0) as [Hneg|Hpos]; [lra|].
    assert (Hss : (2 * a * u - b) * (2 * a * u - b) <= s * s) by nra.
    nra. }
  apply (Rmult_le_reg_r (2 * a)); [lra|].
  unfold Rdiv. rewrite Rmult_assoc, Rinv_l by lra. lra.
Qed.

(** At the knee of a machine with [L_d < L_q] the root is [-psi_f/L_d], so
    that the exact [|i|^2 - i_d^2] is zero and the computed one is the
    rounding error alone. *)
Lemma mtpv_root_knee (self : OptimalLoci) :
  0 < L_d self -> L_d self < L_q self -> 0 < psi_f self ->
  mtpv_root self (psi_f self / L_d self) = - (psi_f self / L_d self).
Proof.
  intros Hd Hlt Hpsi.
  pose proof (mtpv_root_bounds self (psi_f self / L_d self) Hd Hlt Hpsi
                ltac:(lra)) as [Hlo _].
  pose proof (mtpv_root_below_knee self (psi_f self / L_d self) Hd
                ltac:(lra) ltac:(lra)) as Hhi.
  lra.
Qed.

Lemma mtpv_difference_knee (rounding : R -> R) (self : OptimalLoci) :
  0 < L_d self -> L_d self < L_q self -> 0 < psi_f self ->
  mtpv_difference rounding self (psi_f self / L_d self)
  = rounding (psi_f self / L_d self).
Proof.
  intros Hd Hlt Hpsi. unfold mtpv_difference.
  rewrite mtpv_root_knee by assumption. ring.
Qed.

(** From the knee upwards the exact difference is not negative on a machine
    with [L_d < L_q]. *)
Lemma mtpv_root_in_circle (self : OptimalLoci) (x : R) :
  0 < L_d self -> L_d self < L_q self -> 0 < psi_f self ->
  psi_f self / L_d self <= x ->
  0 <= x /\ mtpv_root self x ^ 2 <= x ^ 2.
Proof.
  intros Hd Hlt Hpsi Hx.
  pose proof (mtpv_root_bounds self x Hd Hlt Hpsi Hx) as [Hr1 Hr2].
  assert (0 < psi_f self / L_d self) by (apply Rdiv_lt_0_compat; lra).
  split; [lra|nra].
Qed.

(** [mtpv] has no path to [NumericDomainError]. *)
Lemma mtpv_never_domain_error (rounding : R -> R)
  (self : OptimalLoci) (i_max : R) (N : Z) :
  returns (mtpv rounding i_max N) self <> Raise NumericDomainError.
Proof.
  destruct (Req_dec_T (psi_f self) 0) as [Hpsi|Hpsi].
  - rewrite mtpv_syrm by exact Hpsi.
    unfold on_ok, py_div, linspace.
    repeat match goal with
           | |- context [if ?c then _ else _] => destruct c
           end; discriminate.
  - rewrite mtpv_ipmsm by exact Hpsi.
    unfold on_ok, py_div, linspace.
    repeat match goal with
           | |- context [if ?c then _ else _] => destruct c
           end; discriminate.
Qed.

Lemma mtpv_nan_at_negative_discriminant (rounding : R -> R)
  (self : OptimalLoci) (i_max : R) (N : Z) (j : nat) :
  psi_f self <> 0 -> L_d self <> 0 -> L_d self <> L_q self ->
  psi_f self / L_d self < i_max -> (j < Z.to_nat N)%nat ->
  discriminant self (sample (psi_f self / L_d self) i_max N j) < 0 ->
  exists locus,
    returns (mtpv rounding i_max N) self = Ok locus
    /\ length locus = Z.to_nat N
    /\ nth j locus (C128 (Fin 0) (Fin 0)) = C128 NaN NaN.
Proof.
  intros Hpsi Hd Hdq Hknee Hj Hneg.
  rewrite mtpv_above_knee by (try assumption; lia).
  eexists. split; [reflexivity|].
  split; [now rewrite length_map, samples_length|].
  rewrite nth_map_samples by exact Hj.
  now apply mtpv_element_nan.
Qed.

Lemma negative_L_d_constructed :
  __init__ (Pars.Build 1 (-1) 1 1 None) = Ok negative_L_d.
Proof. reflexivity. Qed.

Lemma negative_L_d_discriminant :
  sample (psi_f negative_L_d / L_d negative_L_d) 1 3 1 = 0
  /\ discriminant negative_L_d 0 = - (7 / 4).
Proof.
  split.
  - unfold sample. simpl. lra.
  - unfold discriminant, mtpv_disc, mtpv_c, mtpv_a, mtpv_b, mtpv_k. simpl. lra.
Qed.

(** C5, counterexample: with [L_d = -1], [L_q = 1], [psi_f = 1] the call
    [mtpv(1, 3)] samples [|i| = -1, 0, 1]; at [|i| = 0] the discriminant is
    [-7/4].  The call does not fail, whatever the rounding: it returns
    three points, the middle one NaN+NaNj. *)
Lemma mtpv_returns_nan :
  psi_f negative_L_d <> 0
  /\ discriminant negative_L_d
       (sample (psi_f negative_L_d / L_d negative_L_d) 1 3 1) < 0
  /\ forall rounding,
       returns (mtpv rounding 1 3) negative_L_d <> Raise NumericDomainError
       /\ exists locus,
            returns (mtpv rounding 1 3) negative_L_d = Ok locus
            /\ length locus = 3%nat
            /\ nth 1 locus (C128 (Fin 0) (Fin 0)) = C128 NaN NaN.
Proof.
  destruct negative_L_d_discriminant as [Hs Hdisc].
  assert (Hneg : discriminant negative_L_d
            (sample (psi_f negative_L_d / L_d negative_L_d) 1 3 1) < 0)
    by (rewrite Hs, Hdisc; lra).
  split; [simpl; lra|]. split; [exact Hneg|].
  intros rounding.
  split; [apply mtpv_never_domain_error|].
  apply mtpv_nan_at_negative_discriminant;
    try exact Hneg; simpl; try lra; lia.
Qed.

(** C5, amended: [mtpv] never fails with [NumericDomainError].  On IPMSM
    parameters ([psi_f != 0], with [L_d != 0], [L_d != L_q] and
    [psi_f/L_d < i_max], so that samples are taken), a sample whose
    discriminant [b^2 - 4*a*c] is negative does not stop the call: [np.sqrt]
    gives NaN there, the locus of [N] points is returned, and the point of
    that sample is NaN+NaNj. *)
Theorem mtpv_negative_discriminant_gives_nan (rounding : R -> R)
  (self : OptimalLoci) (i_max : R) (N : Z) (j : nat) :
  returns (mtpv rounding i_max N) self <> Raise NumericDomainError
  /\ (psi_f self <> 0 -> L_d self <> 0 -> L_d self <> L_q self ->
      psi_f self / L_d self < i_max -> (j < Z.to_nat N)%nat ->
      discriminant self (sample (psi_f self / L_d self) i_max N j) < 0 ->
      exists locus,
        returns (mtpv rounding i_max N) self = Ok locus
        /\ length locus = Z.to_nat N
        /\ nth j locus (C128 (Fin 0) (Fin 0)) = C128 NaN NaN).
Proof.
  split.
  - apply mtpv_never_domain_error.
  - apply mtpv_nan_at_negative_discriminant.
Qed.

Lemma mtpv_negative_discriminant_gives_nan_witness :
  discriminant negative_L_d
    (sample (psi_f negative_L_d / L_d negative_L_d) 1 3 1) < 0
  /\ exists locus,
       returns (mtpv no_rounding 1 3) negative_L_d = Ok locus
       /\ length locus = 3%nat
       /\ nth 1 locus (C128 (Fin 0) (Fin 0)) = C128 NaN NaN.
Proof.
  assert (Hneg : discriminant negative_L_d
            (sample (psi_f negative_L_d / L_d negative_L_d) 1 3 1) < 0).
  { destruct negative_L_d_discriminant as [Hs Hdisc].
    rewrite Hs, Hdisc. lra. }
  split; [exact Hneg|].
  apply (proj2 (mtpv_negative_discriminant_gives_nan no_rounding
                  negative_L_d 1 3 1));
    try exact Hneg; simpl; try lra; lia.
Defined.

(** C7, counterexample: [spm] is valid, has [psi_f > 0] and
    [psi_f/L_d = 1 < 2], but [L_d == L_q]; [mtpv(2, 2)] raises
    [ZeroDivisionError] in [k = L_q/(L_d - L_q)] and returns no point. *)
Lemma mtpv_spm_divides_by_zero :
  valid spm /\ 0 < psi_f spm /\ psi_f spm / L_d spm < 2
  /\ forall rounding,
       returns (mtpv rounding 2 2) spm = Raise ZeroDivisionError
       /\ ~ (exists locus, returns (mtpv rounding 2 2) spm = Ok locus
                           /\ length locus = 2%nat).
Proof.
  assert (Hr : forall rounding,
            returns (mtpv rounding 2 2) spm = Raise ZeroDivisionError).
  { intros rounding. rewrite mtpv_ipmsm by (simpl; lra).
    rewrite py_div_ok by (simpl; lra). cbn [on_ok].
    destruct (Rlt_dec (psi_f spm / L_d spm) 2) as [_|H]; [|simpl in H; lra].
    rewrite linspace_samples by lia. cbn [on_ok].
    replace (L_d spm - L_q spm) with 0 by (simpl; lra).
    now rewrite py_div_zero. }
  unfold valid. simpl.
  repeat split; try lra; try lia; [apply Hr|].
  intros [locus [Hl _]]. rewrite Hr in Hl. discriminate Hl.
Qed.

(** C7, amended: on a valid IPMSM solver ([psi_f > 0]) with [L_d != L_q]
    and [psi_f/L_d < i_max], for [N >= 2], [mtpv] returns exactly [N]
    points.  Point [j] is built from the magnitude
    [|i| = psi_f/L_d + j*(i_max - psi_f/L_d)/(N-1)], which is [psi_f/L_d] at
    the first point and [i_max] at the last: its discriminant is not
    negative, [i_d] is the root [(-b - sqrt(b^2 - 4ac))/(2a)] and [i_q] is
    [np.sqrt] of the computed [|i|^2 - i_d^2].  The point is NaN+NaNj when
    that computed difference is negative and [i_d + j*sqrt(difference)]
    otherwise.  When [L_d < L_q] the exact difference is never negative, and
    the modulus of the point is [|i|] wherever the subtraction is exact; at
    the first sample the exact difference is zero, [i_d = -psi_f/L_d], and
    the point is NaN+NaNj as soon as the subtraction rounds below zero. *)
Theorem mtpv_ipmsm_locus (rounding : R -> R) (self : OptimalLoci)
  (i_max : R) (N : Z) :
  valid self -> 0 < psi_f self -> L_d self <> L_q self ->
  psi_f self / L_d self < i_max -> (2 <= N)%Z ->
  exists locus,
    returns (mtpv rounding i_max N) self = Ok locus
    /\ length locus = Z.to_nat N
    /\ (forall j, (j < Z.to_nat N)%nat ->
        0 <= discriminant self (mtpv_magnitude self i_max N j)
        /\ nth j locus (C128 (Fin 0) (Fin 0))
           = mk_current
               (Fin (mtpv_root self (mtpv_magnitude self i_max N j)))
               (F.sqrt (Fin (mtpv_difference rounding self
                               (mtpv_magnitude self i_max N j))))
        /\ (mtpv_difference rounding self (mtpv_magnitude self i_max N j) < 0
            -> nth j locus (C128 (Fin 0) (Fin 0)) = C128 NaN NaN)
        /\ (0 <= mtpv_difference rounding self (mtpv_magnitude self i_max N j)
            -> nth j locus (C128 (Fin 0) (Fin 0))
               = C128 (Fin (mtpv_root self (mtpv_magnitude self i_max N j)))
                      (Fin (sqrt (mtpv_difference rounding self
                                    (mtpv_magnitude self i_max N j)))))
        /\ (L_d self < L_q self ->
            mtpv_root self (mtpv_magnitude self i_max N j) ^ 2
            <= mtpv_magnitude self i_max N j ^ 2
            /\ (rounding (mtpv_magnitude self i_max N j) = 0 ->
                C.abs (nth j locus (C128 (Fin 0) (Fin 0)))
                = Fin (mtpv_magnitude self i_max N j))))
    /\ (L_d self < L_q self ->
        mtpv_root self (psi_f self / L_d self) = - (psi_f self / L_d self)
        /\ nth 0 locus (C128 (Fin 0) (Fin 0))
           = mk_current (Fin (- (psi_f self / L_d self)))
                        (F.sqrt (Fin (rounding (psi_f self / L_d self))))
        /\ (rounding (psi_f self / L_d self) < 0 ->
            nth 0 locus (C128 (Fin 0) (Fin 0)) = C128 NaN NaN))
    /\ mtpv_magnitude self i_max N 0 = psi_f self / L_d self
    /\ mtpv_magnitude self i_max N (Z.to_nat N - 1) = i_max.
Proof.
  intros [Hd [Hq _]] Hpsi Hdq Hknee HN.
  rewrite mtpv_above_knee by (try assumption; lra || lia).
  eexists. split; [reflexivity|].
  split; [now rewrite length_map, samples_length|].
  assert (Hmag : forall j, (j < Z.to_nat N)%nat ->
            sample (psi_f self / L_d self) i_max N j
            = mtpv_magnitude self i_max N j).
  { intros j Hj. now rewrite sample_linear by assumption. }
  split; [|split; [|split]].
  - intros j Hj. rewrite nth_map_samples by exact Hj.
    pose proof (sample_bounds (psi_f self / L_d self) i_max N j HN Hj
                  ltac:(lra)) as [Hlo Hhi].
    rewrite (Hmag j Hj) in *.
    set (x := mtpv_magnitude self i_max N j) in *.
    assert (HD : 0 <= discriminant self x)
      by (apply discriminant_nonneg; lra).
    destruct (mtpv_element_cases rounding self x HD) as [Hnan Hfin].
    split; [exact HD|].
    split; [now apply mtpv_element_root|].
    split; [exact Hnan|]. split; [exact Hfin|].
    intros Hlt.
    destruct (mtpv_root_in_circle self x Hd Hlt Hpsi Hlo) as [Hx0 Hsq].
    split; [exact Hsq|].
    intros Hexact.
    assert (Hdiff : mtpv_difference rounding self x
                    = x ^ 2 - mtpv_root self x ^ 2)
      by (unfold mtpv_difference; rewrite Hexact; ring).
    rewrite Hfin by (rewrite Hdiff; lra).
    rewrite Hdiff. now apply abs_of_parts.
  - intros Hlt.
    pose proof (mtpv_root_knee self Hd Hlt Hpsi) as Hroot.
    pose proof (mtpv_difference_knee rounding self Hd Hlt Hpsi) as Hdiff.
    assert (HD : 0 <= discriminant self (psi_f self / L_d self))
      by (apply discriminant_nonneg; lra).
    rewrite nth_map_samples by lia.
    rewrite sample_first by exact HN.
    rewrite mtpv_element_root by exact HD.
    rewrite Hdiff, Hroot.
    split; [reflexivity|]. split; [reflexivity|].
    intros Hneg. rewrite F_sqrt_negative by exact Hneg.
    apply mk_current_nan.
  - unfold mtpv_magnitude. simpl INR. ring.
  - rewrite <- Hmag by lia. now apply sample_last.
Qed.

Lemma mtpv_ipmsm_locus_witness :
  valid ipmsm
  /\ (exists locus,
       returns (mtpv no_rounding 2 5) ipmsm = Ok locus
       /\ length locus = 5%nat
       /\ C.abs (nth 0 locus (C128 (Fin 0) (Fin 0))) = Fin 1
       /\ C.abs (nth 4 locus (C128 (Fin 0) (Fin 0))) = Fin 2)
  /\ (exists locus,
       returns (mtpv rounds_down 2 5) ipmsm = Ok locus
       /\ length locus = 5%nat
       /\ nth 0 locus (C128 (Fin 0) (Fin 0)) = C128 NaN NaN).
Proof.
  assert (Hlt : L_d ipmsm < L_q ipmsm) by (simpl; lra).
  split; [exact ipmsm_valid|]. split.
  - destruct (mtpv_ipmsm_locus no_rounding ipmsm 2 5)
      as [locus [Hr [Hl [Hp [_ [H0 H4]]]]]].
    + exact ipmsm_valid.
    + simpl. lra.
    + simpl. lra.
    + simpl. lra.
    + lia.
    + exists locus. split; [exact Hr|]. split; [exact Hl|].
      split.
      * destruct (Hp 0%nat ltac:(simpl; lia)) as [_ [_ [_ [_ Hm]]]].
        destruct (Hm Hlt) as [_ Ha].
        rewrite Ha by reflexivity. rewrite H0. simpl. f_equal. lra.
      * destruct (Hp 4%nat ltac:(simpl; lia)) as [_ [_ [_ [_ Hm]]]].
        destruct (Hm Hlt) as [_ Ha].
        rewrite Ha by reflexivity.
        change 4%nat with (Z.to_nat 5 - 1)%nat. now rewrite H4.
  - destruct (mtpv_ipmsm_locus rounds_down ipmsm 2 5)
      as [locus [Hr [Hl [_ [Hk _]]]]].
    + exact ipmsm_valid.
    + simpl. lra.
    + simpl. lra.
    + simpl. lra.
    + lia.
    + exists locus. split; [exact Hr|]. split; [exact Hl|].
      destruct (Hk Hlt) as [_ [_ Hnan]].
      apply Hnan. unfold rounds_down. lra.
Defined.

(** ** Worked inputs *)

Example linspace_four : linspace 0 3 4 = Ok [0; 1; 2; 3].
Proof.
  unfold linspace, arange. simpl.
  destruct (Req_dec_T _ _) as [E|_]; [lra|].
  simpl. repeat f_equal; lra.
Qed.

(** Equal end points: the step is zero and every sample is [start]. *)
Example linspace_flat : linspace 2 2 3 = Ok [2; 2; 2].
Proof.
  unfold linspace, arange. simpl.
  destruct (Req_dec_T _ _) as [_|E]; [|lra].
  simpl. repeat f_equal; lra.
Qed.

Example linspace_one : linspace 5 7 1 = Ok [5].
Proof.
  unfold linspace, arange. simpl.
  repeat f_equal; lra.
Qed.

Example linspace_none : linspace 5 7 0 = Ok [].
Proof. reflexivity. Qed.

(** With [L_d > L_q] the root at the knee lies outside the current circle:
    on [inverse_saliency] the exact difference at the first sample is
    [-24/25], and the first point is NaN+NaNj unless the subtraction is
    wrong by as much. *)
Example mtpv_inverse_saliency_first_point (rounding : R -> R) :
  rounding (psi_f inverse_saliency / L_d inverse_saliency) < 24 / 25 ->
  exists locus,
    returns (mtpv rounding 2 2) inverse_saliency = Ok locus
    /\ nth 0 locus (C128 (Fin 0) (Fin 0)) = C128 NaN NaN.
Proof.
  intros Hround.
  rewrite mtpv_above_knee by (simpl; lra || lia).
  eexists. split; [reflexivity|].
  rewrite nth_map_samples by (simpl; lia).
  rewrite sample_first by lia.
  assert (HD : discriminant inverse_saliency
                 (psi_f inverse_saliency / L_d inverse_saliency)
               = (1 / 2) * (1 / 2)).
  { unfold discriminant, mtpv_disc, mtpv_c, mtpv_a, mtpv_b, mtpv_k.
    simpl. field. }
  rewrite mtpv_element_root by (rewrite HD; lra).
  unfold mtpv_difference, mtpv_root. rewrite HD, sqrt_square by lra.
  rewrite F_sqrt_negative; [apply mk_current_nan|].
  unfold mtpv_a, mtpv_b, mtpv_k. simpl. simpl in Hround. lra.
Qed.

Example torque_at_j :
  returns (torque (Cplx 0 1)) ipmsm = Ok 4.5.
Proof.
  rewrite torque_returns. unfold flux, PyC.mul, PyC.conj, PyC.add, PyC.of_float, PyC.j.
  simpl. f_equal. lra.
Qed.

(** * Further properties of the loci *)

(** ** The maximum of [q*(c - d)] on a circle *)

(** With [c > 0], a point [(d0, q0)] of the circle [d^2 + q^2 = r2] with
    [d0 <= 0 <= q0] and [2*d0^2 - c*d0 = r2] maximises [q*(c - d)] on the
    circle. *)
Lemma circle_max (c r2 d0 q0 d q : R) :
  0 < c -> d0 <= 0 -> 0 <= q0 ->
  d0 ^ 2 + q0 ^ 2 = r2 -> 2 * d0 ^ 2 - c * d0 = r2 ->
  d ^ 2 + q ^ 2 = r2 ->
  q * (c - d) <= q0 * (c - d0).
Proof.
  intros Hc Hd0 Hq0 H0 Hst H.
  assert (E0 : q0 ^ 2 = d0 ^ 2 - c * d0) by lra.
  assert (E : q ^ 2 = 2 * d0 ^ 2 - c * d0 - d ^ 2) by lra.
  assert (Hgap : (q0 * (c - d0)) ^ 2 - (q * (c - d)) ^ 2
                 = (d - d0) ^ 2 * ((d + d0 - c) ^ 2 + c * - d0)).
  { replace ((q0 * (c - d0)) ^ 2) with (q0 ^ 2 * (c - d0) ^ 2) by ring.
    replace ((q * (c - d)) ^ 2) with (q ^ 2 * (c - d) ^ 2) by ring.
    rewrite E0, E. ring. }
  assert (Hpos : 0 <= (d - d0) ^ 2 * ((d + d0 - c) ^ 2 + c * - d0)).
  { apply Rmult_le_pos; [apply pow2_ge_0|].
    pose proof (pow2_ge_0 (d + d0 - c)). nra. }
  assert (Hrhs : 0 <= q0 * (c - d0)) by nra.
  nra.
Qed.

(** ** Torque as a function of the current *)

Lemma torque_returns_of (self : OptimalLoci) (i : complex) :
  returns (torque i) self = Ok (torque_of self i).
Proof.
  rewrite torque_returns, flux_psi_spec.
  unfold torque_of, psi_spec, PyC.mul, PyC.conj. simpl.
  f_equal. ring.
Qed.

(** On a machine with [L_d < L_q] the torque is a positive multiple of
    [i_q*(c - i_d)] with [c = psi_f/(L_q - L_d)]. *)
Lemma torque_of_saliency (self : OptimalLoci) (i : complex) :
  L_d self < L_q self ->
  torque_of self i =
  1.5 * IZR (p self) * (L_q self - L_d self)
  * (imag i * (psi_f self / (L_q self - L_d self) - real i)).
Proof.
  intros Hlt. unfold torque_of. field. lra.
Qed.

(** ** IPMSM: geometry and optimality of the MTPA locus *)

Lemma mtpa_ipmsm_returns (self : OptimalLoci) (i_max : R) (N : Z) :
  psi_f self <> 0 -> L_d self <> L_q self -> (0 <= N)%Z ->
  returns (mtpa i_max N) self =
  Ok (map (mtpa_ipmsm_point (psi_f self / (L_d self - L_q self)))
          (samples 0 i_max N)).
Proof.
  intros Hpsi Hdq HN.
  rewrite mtpa_ipmsm by exact Hpsi.
  rewrite linspace_samples by exact HN. cbn [on_ok].
  rewrite py_div_ok by lra. reflexivity.
Qed.

Lemma mtpa_sample_magnitude (i_max : R) (N : Z) (j : nat) :
  (2 <= N)%Z -> (j < Z.to_nat N)%nat ->
  sample 0 i_max N j = mtpa_magnitude i_max N j.
Proof.
  intros HN Hj. rewrite sample_linear by assumption.
  unfold mtpa_magnitude, Rdiv. ring.
Qed.

Lemma mtpa_magnitude_nonneg (i_max : R) (N : Z) (j : nat) :
  (2 <= N)%Z -> 0 <= i_max -> 0 <= mtpa_magnitude i_max N j.
Proof.
  intros HN Hi. unfold mtpa_magnitude.
  apply Rmult_le_pos; [apply pos_INR|].
  apply Rmult_le_pos; [exact Hi|].
  left. apply Rinv_0_lt_compat. apply IZR_lt. lia.
Qed.

Lemma mtpa_magnitude_increasing (i_max : R) (N : Z) (j j' : nat) :
  (2 <= N)%Z -> 0 < i_max -> (j < j')%nat ->
  mtpa_magnitude i_max N j < mtpa_magnitude i_max N j'.
Proof.
  intros HN Hi Hjj. unfold mtpa_magnitude.
  apply Rmult_lt_compat_r.
  - apply Rmult_lt_0_compat; [exact Hi|].
    apply Rinv_0_lt_compat. apply IZR_lt. lia.
  - now apply lt_INR.
Qed.

Lemma mtpa_magnitude_last (i_max : R) (N : Z) :
  (2 <= N)%Z -> mtpa_magnitude i_max N (Z.to_nat N - 1) = i_max.
Proof.
  intros HN. unfold mtpa_magnitude.
  replace (INR (Z.to_nat N - 1)) with (IZR (N - 1))
    by (rewrite INR_IZR_INZ; f_equal; lia).
  field. apply not_0_IZR. lia.
Qed.

(** The MTPA point of an IPMSM at magnitude [x], for [i_a < 0]: it lies in
    the second quadrant on the circle of radius [x] and satisfies
    [2*i_d^2 + i_a*i_d = x^2]. *)
Lemma mtpa_point_facts (i_a x : R) :
  i_a < 0 ->
  exists d q,
    mtpa_ipmsm_point i_a x = C128 (Fin d) (Fin q)
    /\ d <= 0 /\ 0 <= q
    /\ d ^ 2 + q ^ 2 = x ^ 2
    /\ 2 * d ^ 2 + i_a * d = x ^ 2.
Proof.
  intros Hia.
  destruct (mtpa_ipmsm_parts i_a x Hia) as [d [q [Hd [Hq [Ed [Eq [Hle Hsq]]]]]]].
  exists d, q. unfold mtpa_ipmsm_point. rewrite Hd, Hq, mk_current_fin.
  split; [reflexivity|]. split; [exact Hle|].
  assert (Hq0 : 0 <= q) by (rewrite Eq; apply sqrt_pos).
  assert (Hq2 : q * q = x ^ 2 - d ^ 2)
    by (rewrite Eq; apply sqrt_sqrt; lra).
  assert (Hr : 0 <= i_a ^ 2 / 16 + x ^ 2 / 2) by nra.
  pose proof (sqrt_sqrt _ Hr) as Hs.
  set (s := sqrt (i_a ^ 2 / 16 + x ^ 2 / 2)) in *.
  repeat split; try assumption; nra.
Qed.

Lemma ipmsm_i_a_negative (self : OptimalLoci) :
  0 < psi_f self -> L_d self < L_q self ->
  psi_f self / (L_d self - L_q self) < 0.
Proof.
  intros Hpsi Hlt.
  apply Ropp_lt_cancel. rewrite Ropp_0.
  replace (- (psi_f self / (L_d self - L_q self)))
    with (psi_f self / (L_q self - L_d self)) by (field; lra).
  apply Rdiv_lt_0_compat; lra.
Qed.

(** X1: on an IPMSM solver with [L_d < L_q], the modulus of the [j]-th MTPA
    point is [j*i_max/(N-1)]; along the locus the moduli increase strictly,
    from 0 at the first point to [i_max] at the last. *)
Theorem mtpa_ipmsm_magnitudes (self : OptimalLoci) (i_max : R) (N : Z) :
  0 < psi_f self -> L_d self < L_q self -> 0 < i_max -> (2 <= N)%Z ->
  exists locus,
    returns (mtpa i_max N) self = Ok locus
    /\ (forall j, (j < Z.to_nat N)%nat ->
        C.abs (nth j locus (C128 NaN NaN)) = Fin (mtpa_magnitude i_max N j))
    /\ (forall j j', (j < j')%nat -> (j' < Z.to_nat N)%nat ->
        exists r r',
          C.abs (nth j locus (C128 NaN NaN)) = Fin r
          /\ C.abs (nth j' locus (C128 NaN NaN)) = Fin r'
          /\ r < r')
    /\ C.abs (nth 0 locus (C128 NaN NaN)) = Fin 0
    /\ C.abs (nth (Z.to_nat N - 1) locus (C128 NaN NaN)) = Fin i_max.
Proof.
  intros Hpsi Hlt Himax HN.
  pose proof (ipmsm_i_a_negative self Hpsi Hlt) as Hia.
  rewrite mtpa_ipmsm_returns by (lra || lia).
  eexists. split; [reflexivity|].
  assert (Habs : forall j, (j < Z.to_nat N)%nat ->
            C.abs (nth j (map (mtpa_ipmsm_point
                                 (psi_f self / (L_d self - L_q self)))
                              (samples 0 i_max N)) (C128 NaN NaN))
            = Fin (mtpa_magnitude i_max N j)).
  { intros j Hj. rewrite nth_map_samples by exact Hj.
    rewrite mtpa_sample_magnitude by assumption.
    pose proof (mtpa_magnitude_nonneg i_max N j HN ltac:(lra)) as Hx.
    destruct (mtpa_ipmsm_parts _ (mtpa_magnitude i_max N j) Hia)
      as [d [q [Hd [Hq [Ed [Eq [Hle Hsq]]]]]]].
    unfold mtpa_ipmsm_point. rewrite Hd, Hq, mk_current_fin, Eq.
    now apply abs_of_parts. }
  split; [exact Habs|]. split; [|split].
  - intros j j' Hjj Hj'.
    exists (mtpa_magnitude i_max N j), (mtpa_magnitude i_max N j').
    split; [apply Habs; lia|]. split; [now apply Habs|].
    now apply mtpa_magnitude_increasing.
  - rewrite Habs by lia. f_equal. unfold mtpa_magnitude. simpl INR. ring.
  - rewrite Habs by lia. f_equal. now apply mtpa_magnitude_last.
Qed.

Lemma mtpa_ipmsm_magnitudes_witness :
  exists locus,
    returns (mtpa 2 5) ipmsm = Ok locus
    /\ C.abs (nth 4 locus (C128 NaN NaN)) = Fin 2.
Proof.
  destruct (mtpa_ipmsm_magnitudes ipmsm 2 5) as [locus [Hr [_ [_ [_ Hl]]]]].
  - simpl. lra.
  - simpl. lra.
  - lra.
  - lia.
  - exists locus. split; [exact Hr|exact Hl].
Defined.

(** X2: every MTPA point of an IPMSM with [L_d < L_q] lies in the second
    quadrant, at an angle between 90 and 135 degrees, and satisfies the
    stationarity condition of the torque on its current circle,
    [psi_f*i_d + (L_d - L_q)*(i_d^2 - i_q^2) = 0]. *)
Theorem mtpa_ipmsm_stationary (self : OptimalLoci) (i_max : R) (N : Z) :
  0 < psi_f self -> L_d self < L_q self -> 0 < i_max -> (2 <= N)%Z ->
  exists locus,
    returns (mtpa i_max N) self = Ok locus
    /\ forall j, (j < Z.to_nat N)%nat ->
       exists i,
         finite_point (nth j locus (C128 NaN NaN)) i
         /\ real i <= 0 <= imag i
         /\ real i ^ 2 <= imag i ^ 2
         /\ psi_f self * real i
            + (L_d self - L_q self) * (real i ^ 2 - imag i ^ 2) = 0.
Proof.
  intros Hpsi Hlt Himax HN.
  pose proof (ipmsm_i_a_negative self Hpsi Hlt) as Hia.
  rewrite mtpa_ipmsm_returns by (lra || lia).
  eexists. split; [reflexivity|].
  intros j Hj. rewrite nth_map_samples by exact Hj.
  destruct (mtpa_point_facts _ (sample 0 i_max N j) Hia)
    as [d [q [Hpt [Hd [Hq [Hc Hst]]]]]].
  exists (Cplx d q). unfold finite_point. cbn [real imag].
  split; [exact Hpt|]. split; [lra|].
  set (i_a := psi_f self / (L_d self - L_q self)) in *.
  assert (Hq2 : q ^ 2 = d ^ 2 + i_a * d) by lra.
  split; [nra|].
  assert (Hpsi_a : psi_f self = i_a * (L_d self - L_q self))
    by (unfold i_a; field; lra).
  rewrite Hq2, Hpsi_a. ring.
Qed.

Lemma mtpa_ipmsm_stationary_witness :
  exists locus, returns (mtpa 2 5) ipmsm = Ok locus.
Proof.
  destruct (mtpa_ipmsm_stationary ipmsm 2 5) as [locus [Hr _]].
  - simpl. lra.
  - simpl. lra.
  - lra.
  - lia.
  - exists locus. exact Hr.
Defined.

(** X3: maximum torque per ampere.  On a valid IPMSM solver with
    [L_d < L_q], no current vector of the same magnitude gives more torque
    than the [j]-th MTPA point. *)
Theorem mtpa_ipmsm_optimal
  (self : OptimalLoci) (i_max : R) (N : Z) (j : nat) (i' : complex) :
  valid self -> 0 < psi_f self -> L_d self < L_q self ->
  0 < i_max -> (2 <= N)%Z -> (j < Z.to_nat N)%nat ->
  current_sq i' = mtpa_magnitude i_max N j ^ 2 ->
  exists locus i T T',
    returns (mtpa i_max N) self = Ok locus
    /\ finite_point (nth j locus (C128 NaN NaN)) i
    /\ returns (torque i) self = Ok T
    /\ returns (torque i') self = Ok T'
    /\ T' <= T.
Proof.
  intros [_ [_ [_ Hp]]] Hpsi Hlt Himax HN Hj Hi'.
  pose proof (ipmsm_i_a_negative self Hpsi Hlt) as Hia.
  rewrite mtpa_ipmsm_returns by (lra || lia).
  destruct (mtpa_point_facts _ (sample 0 i_max N j) Hia)
    as [d [q [Hpt [Hd [Hq [Hc Hst]]]]]].
  rewrite mtpa_sample_magnitude in Hc, Hst, Hpt by assumption.
  eexists. exists (Cplx d q), (torque_of self (Cplx d q)), (torque_of self i').
  split; [reflexivity|].
  split; [unfold finite_point; rewrite nth_map_samples by exact Hj;
          rewrite mtpa_sample_magnitude by assumption; exact Hpt|].
  split; [apply torque_returns_of|]. split; [apply torque_returns_of|].
  rewrite !torque_of_saliency by exact Hlt. cbn [real imag].
  set (c := psi_f self / (L_q self - L_d self)).
  assert (Hc0 : 0 < c) by (apply Rdiv_lt_0_compat; lra).
  assert (Hmax : imag i' * (c - real i') <= q * (c - d)).
  { apply (circle_max c (mtpa_magnitude i_max N j ^ 2) d q);
      try assumption.
    replace c with (- (psi_f self / (L_d self - L_q self)))
      by (unfold c; field; lra).
    lra. }
  assert (Hk : 0 <= 1.5 * IZR (p self) * (L_q self - L_d self)).
  { apply Rmult_le_pos; [|lra].
    apply Rmult_le_pos; [lra|]. apply IZR_le. lia. }
  now apply Rmult_le_compat_l.
Qed.

Lemma mtpa_ipmsm_optimal_witness :
  exists locus i T T',
    returns (mtpa 2 5) ipmsm = Ok locus
    /\ finite_point (nth 4 locus (C128 NaN NaN)) i
    /\ returns (torque i) ipmsm = Ok T
    /\ returns (torque (Cplx 0 2)) ipmsm = Ok T'
    /\ T' <= T.
Proof.
  apply (mtpa_ipmsm_optimal ipmsm 2 5 4 (Cplx 0 2)).
  - exact ipmsm_valid.
  - simpl. lra.
  - simpl. lra.
  - lra.
  - lia.
  - simpl. lia.
  - unfold current_sq, mtpa_magnitude. simpl. lra.
Defined.

(** X4: along the MTPA locus of a valid IPMSM solver with [L_d < L_q] the
    torque is non-negative and does not decrease: a later point never gives
    less torque than an earlier one, so the last point gives the most. *)
Theorem mtpa_ipmsm_torque_monotone
  (self : OptimalLoci) (i_max : R) (N : Z) (j j' : nat) :
  valid self -> 0 < psi_f self -> L_d self < L_q self ->
  0 < i_max -> (2 <= N)%Z -> (j <= j')%nat -> (j' < Z.to_nat N)%nat ->
  exists locus i i' T T',
    returns (mtpa i_max N) self = Ok locus
    /\ finite_point (nth j locus (C128 NaN NaN)) i
    /\ finite_point (nth j' locus (C128 NaN NaN)) i'
    /\ returns (torque i) self = Ok T
    /\ returns (torque i') self = Ok T'
    /\ 0 <= T <= T'.
Proof.
  intros [_ [_ [_ Hp]]] Hpsi Hlt Himax HN Hjj Hj'.
  assert (Hj : (j < Z.to_nat N)%nat) by lia.
  pose proof (ipmsm_i_a_negative self Hpsi Hlt) as Hia.
  rewrite mtpa_ipmsm_returns by (lra || lia).
  destruct (mtpa_point_facts _ (sample 0 i_max N j) Hia)
    as [d [q [Hpt [Hd [Hq [Hc Hst]]]]]].
  destruct (mtpa_point_facts _ (sample 0 i_max N j') Hia)
    as [d' [q' [Hpt' [Hd' [Hq' [Hc' Hst']]]]]].
  rewrite mtpa_sample_magnitude in Hc, Hst, Hc', Hst' by assumption.
  pose proof (mtpa_magnitude_nonneg i_max N j HN ltac:(lra)) as Hx.
  assert (Hxx : mtpa_magnitude i_max N j <= mtpa_magnitude i_max N j').
  { destruct (Nat.eq_dec j j') as [->|Hne]; [lra|].
    left. apply mtpa_magnitude_increasing; try assumption. lia. }
  set (x := mtpa_magnitude i_max N j) in *.
  set (x' := mtpa_magnitude i_max N j') in *.
  eexists. exists (Cplx d q), (Cplx d' q'),
    (torque_of self (Cplx d q)), (torque_of self (Cplx d' q')).
  split; [reflexivity|].
  split; [unfold finite_point; now rewrite nth_map_samples by exact Hj|].
  split; [unfold finite_point; now rewrite nth_map_samples by exact Hj'|].
  split; [apply torque_returns_of|]. split; [apply torque_returns_of|].
  rewrite !torque_of_saliency by exact Hlt. cbn [real imag].
  set (c := psi_f self / (L_q self - L_d self)).
  assert (Hc0 : 0 < c) by (apply Rdiv_lt_0_compat; lra).
  assert (Hca : 2 * d' ^ 2 - c * d' = x' ^ 2).
  { replace c with (- (psi_f self / (L_d self - L_q self)))
      by (unfold c; field; lra).
    lra. }
  assert (Hk : 0 <= 1.5 * IZR (p self) * (L_q self - L_d self)).
  { apply Rmult_le_pos; [|lra].
    apply Rmult_le_pos; [lra|]. apply IZR_le. lia. }
  assert (Hlow : 0 <= q * (c - d)) by nra.
  assert (Hup : q * (c - d) <= q' * (c - d')).
  { destruct (Rle_lt_or_eq_dec 0 x Hx) as [Hpos|Hzero].
    - (* the earlier point, stretched to the later circle *)
      set (s := x' / x).
      assert (Hs : 1 <= s).
      { unfold s. apply (Rmult_le_reg_r x); [exact Hpos|].
        unfold Rdiv. rewrite Rmult_assoc, Rinv_l by lra. lra. }
      assert (Hsx : s * x = x') by (unfold s; field; lra).
      assert (Hcirc : (s * d) ^ 2 + (s * q) ^ 2 = x' ^ 2).
      { rewrite <- Hsx. replace ((s * x) ^ 2) with (s ^ 2 * x ^ 2) by ring.
        rewrite <- Hc. ring. }
      pose proof (circle_max c (x' ^ 2) d' q' (s * d) (s * q)
                    Hc0 Hd' Hq' Hc' Hca Hcirc) as Hmax.
      assert (Hstretch : q * (c - d) <= s * q * (c - s * d)).
      { assert (0 <= (s - 1) * (q * c)) by (apply Rmult_le_pos; nra).
        assert (0 <= (s * s - 1) * (q * - d))
          by (apply Rmult_le_pos; nra).
        nra. }
      lra.
    - assert (Hq00 : q = 0) by nra.
      rewrite Hq00. nra. }
  split.
  - now apply Rmult_le_pos.
  - now apply Rmult_le_compat_l.
Qed.

Lemma mtpa_ipmsm_torque_monotone_witness :
  exists locus i i' T T',
    returns (mtpa 2 5) ipmsm = Ok locus
    /\ finite_point (nth 1 locus (C128 NaN NaN)) i
    /\ finite_point (nth 4 locus (C128 NaN NaN)) i'
    /\ returns (torque i) ipmsm = Ok T
    /\ returns (torque i') ipmsm = Ok T'
    /\ 0 <= T <= T'.
Proof.
  apply (mtpa_ipmsm_torque_monotone ipmsm 2 5 1 4).
  - exact ipmsm_valid.
  - simpl. lra.
  - simpl. lra.
  - lra.
  - lia.
  - lia.
  - simpl. lia.
Defined.

(** ** A permanent-magnet machine with [L_d > L_q] *)

(** For [i_a > 0] the MTPA point is NaN below [|i| = i_a] and real from
    there on. *)
Lemma mtpa_point_inverse (i_a x : R) :
  0 < i_a -> 0 <= x ->
  (x < i_a -> mtpa_ipmsm_point i_a x = C128 NaN NaN)
  /\ (i_a <= x ->
      exists d q, mtpa_ipmsm_point i_a x = C128 (Fin d) (Fin q)
                  /\ d < 0 /\ 0 <= q).
Proof.
  intros Hia Hx.
  assert (Hr : 0 <= i_a ^ 2 / 16 + x ^ 2 / 2) by nra.
  pose proof (sqrt_pos (i_a ^ 2 / 16 + x ^ 2 / 2)) as Hs0.
  pose proof (sqrt_sqrt _ Hr) as Hs.
  assert (Hid : mtpa_ipmsm_i_d i_a x
                = Fin (- i_a / 4 - sqrt (i_a ^ 2 / 16 + x ^ 2 / 2))).
  { unfold mtpa_ipmsm_i_d. now rewrite F_sqrt_nonneg by exact Hr. }
  set (s := sqrt (i_a ^ 2 / 16 + x ^ 2 / 2)) in *.
  assert (Hgap : x ^ 2 - (- i_a / 4 - s) * (- i_a / 4 - s)
                 = (s - 3 * (i_a / 4)) * (s + i_a / 4)) by nra.
  unfold mtpa_ipmsm_point, mtpa_ipmsm_i_q. rewrite Hid.
  unfold F.sq, F.sub, F.mul, F.lift2. rewrite Hgap.
  split.
  - intros Hlt.
    assert (Hs3 : s < 3 * (i_a / 4)) by nra.
    rewrite F_sqrt_negative by nra.
    apply mk_current_nan.
  - intros Hge.
    assert (Hs3 : 3 * (i_a / 4) <= s) by nra.
    rewrite F_sqrt_nonneg by nra.
    rewrite mk_current_fin.
    eexists. eexists. split; [reflexivity|].
    split; [lra|apply sqrt_pos].
Qed.

(** X5: on a solver with [psi_f > 0] and [L_d > L_q], [mtpa] returns [N]
    points of which exactly those with [|i| < psi_f/(L_d - L_q)] are
    NaN+NaNj; the first point, at [|i| = 0], always is. *)
Theorem mtpa_inverse_saliency_nan (self : OptimalLoci) (i_max : R) (N : Z) :
  0 < psi_f self -> L_q self < L_d self -> 0 < i_max -> (2 <= N)%Z ->
  exists locus,
    returns (mtpa i_max N) self = Ok locus
    /\ length locus = Z.to_nat N
    /\ (forall j, (j < Z.to_nat N)%nat ->
        (mtpa_magnitude i_max N j < psi_f self / (L_d self - L_q self) ->
         nth j locus (C128 (Fin 0) (Fin 0)) = C128 NaN NaN)
        /\ (psi_f self / (L_d self - L_q self) <= mtpa_magnitude i_max N j ->
            exists i, finite_point (nth j locus (C128 NaN NaN)) i))
    /\ nth 0 locus (C128 (Fin 0) (Fin 0)) = C128 NaN NaN.
Proof.
  intros Hpsi Hlt Himax HN.
  assert (Hia : 0 < psi_f self / (L_d self - L_q self))
    by (apply Rdiv_lt_0_compat; lra).
  rewrite mtpa_ipmsm_returns by (lra || lia).
  eexists. split; [reflexivity|].
  split; [now rewrite length_map, samples_length|]. split.
  - intros j Hj. rewrite !nth_map_samples by exact Hj.
    rewrite mtpa_sample_magnitude by assumption.
    pose proof (mtpa_magnitude_nonneg i_max N j HN ltac:(lra)) as Hx.
    destruct (mtpa_point_inverse _ _ Hia Hx) as [Hnan Hfin].
    split; [exact Hnan|].
    intros Hge. destruct (Hfin Hge) as [d [q [Hpt _]]].
    exists (Cplx d q). exact Hpt.
  - rewrite nth_map_samples by lia.
    rewrite sample_first by exact HN.
    now apply (mtpa_point_inverse _ 0 Hia ltac:(lra)).
Qed.

Lemma mtpa_inverse_saliency_nan_witness :
  exists locus,
    returns (mtpa 2 5) inverse_saliency = Ok locus
    /\ nth 0 locus (C128 (Fin 0) (Fin 0)) = C128 NaN NaN.
Proof.
  destruct (mtpa_inverse_saliency_nan inverse_saliency 2 5)
    as [locus [Hr [_ [_ H0]]]].
  - simpl. lra.
  - simpl. lra.
  - lra.
  - lia.
  - exists locus. split; assumption.
Defined.

(** ** SyRM: geometry and optimality of the MTPA locus *)

Lemma mtpa_syrm_returns (self : OptimalLoci) (i_max : R) (N : Z) (m : R) :
  psi_f self = 0 -> i_d_min self = Some m -> (0 <= N)%Z ->
  returns (mtpa i_max N) self =
  Ok (map (mtpa_syrm_point m) (samples 0 (i_max / sqrt 2) N)).
Proof.
  intros Hpsi Hm HN.
  rewrite mtpa_syrm by exact Hpsi.
  rewrite linspace_samples by exact HN. cbn [on_ok]. now rewrite Hm.
Qed.

Lemma syrm_sample_eq (i_max : R) (N : Z) (j : nat) :
  (2 <= N)%Z -> (j < Z.to_nat N)%nat ->
  sample 0 (i_max / sqrt 2) N j = syrm_sample i_max N j.
Proof.
  intros HN Hj. rewrite sample_linear by assumption.
  unfold syrm_sample, Rdiv. ring.
Qed.

Lemma syrm_sample_bounds (i_max : R) (N : Z) (j : nat) :
  (2 <= N)%Z -> (j < Z.to_nat N)%nat -> 0 <= i_max ->
  0 <= syrm_sample i_max N j <= i_max / sqrt 2.
Proof.
  intros HN Hj Hi.
  rewrite <- syrm_sample_eq by assumption.
  apply sample_bounds; try assumption.
  apply Rmult_le_pos; [exact Hi|].
  left. apply Rinv_0_lt_compat. exact sqrt2_pos.
Qed.

Lemma sqrt2_sqr : sqrt 2 * sqrt 2 = 2.
Proof. apply sqrt_sqrt. lra. Qed.

Lemma syrm_sample_magnitude (i_max : R) (N : Z) (j : nat) :
  sqrt 2 * syrm_sample i_max N j = mtpa_magnitude i_max N j.
Proof.
  unfold syrm_sample, mtpa_magnitude, Rdiv.
  assert (H : sqrt 2 * / sqrt 2 = 1)
    by (apply Rinv_r; pose proof sqrt2_pos; lra).
  transitivity (INR j * (i_max * (sqrt 2 * / sqrt 2) * / IZR (N - 1)));
    [ring|rewrite H; ring].
Qed.

(** X6: on a SyRM solver whose floor is not above 0, the modulus of the
    [j]-th MTPA point is [j*i_max/(N-1)], with [i_max] at the last point;
    when [L_d >= L_q] no current vector of the same magnitude gives more
    torque than that point. *)
Theorem mtpa_syrm_optimal
  (self : OptimalLoci) (i_max : R) (N : Z) (m : R) (j : nat) (i' : complex) :
  psi_f self = 0 -> i_d_min self = Some m -> m <= 0 ->
  L_q self <= L_d self -> (0 <= p self)%Z ->
  0 < i_max -> (2 <= N)%Z -> (j < Z.to_nat N)%nat ->
  current_sq i' = mtpa_magnitude i_max N j ^ 2 ->
  exists locus i T T',
    returns (mtpa i_max N) self = Ok locus
    /\ finite_point (nth j locus (C128 NaN NaN)) i
    /\ C.abs (nth j locus (C128 NaN NaN)) = Fin (mtpa_magnitude i_max N j)
    /\ C.abs (nth (Z.to_nat N - 1) locus (C128 NaN NaN)) = Fin i_max
    /\ returns (torque i) self = Ok T
    /\ returns (torque i') self = Ok T'
    /\ T' <= T.
Proof.
  intros Hpsi Hm Hm0 Hdq Hp Himax HN Hj Hi'.
  rewrite (mtpa_syrm_returns self i_max N m) by (assumption || lia).
  assert (Hpt : forall k, (k < Z.to_nat N)%nat ->
            nth k (map (mtpa_syrm_point m) (samples 0 (i_max / sqrt 2) N))
                (C128 NaN NaN)
            = C128 (Fin (syrm_sample i_max N k)) (Fin (syrm_sample i_max N k))).
  { intros k Hk. rewrite nth_map_samples by exact Hk.
    rewrite mtpa_syrm_point_eq, syrm_sample_eq by assumption.
    pose proof (syrm_sample_bounds i_max N k HN Hk ltac:(lra)) as Hb.
    destruct (Rlt_dec (syrm_sample i_max N k) m); [lra|reflexivity]. }
  assert (Habs : forall k, (k < Z.to_nat N)%nat ->
            C.abs (C128 (Fin (syrm_sample i_max N k))
                        (Fin (syrm_sample i_max N k)))
            = Fin (mtpa_magnitude i_max N k)).
  { intros k Hk.
    pose proof (syrm_sample_bounds i_max N k HN Hk ltac:(lra)) as Hb.
    pose proof (mtpa_magnitude_nonneg i_max N k HN ltac:(lra)) as Hx.
    pose proof (syrm_sample_magnitude i_max N k) as Hmag.
    pose proof sqrt2_sqr as H2.
    unfold C.abs, F.sq, F.add, F.mul, F.lift2. cbn [re128 im128].
    rewrite F_sqrt_nonneg by nra.
    f_equal. apply sqrt_square_eq; [exact Hx|].
    rewrite <- Hmag. nra. }
  set (x := syrm_sample i_max N j).
  eexists. exists (Cplx x x), (torque_of self (Cplx x x)), (torque_of self i').
  split; [reflexivity|].
  split; [unfold finite_point; now rewrite Hpt|].
  split; [rewrite Hpt by exact Hj; now apply Habs|].
  split; [rewrite Hpt, Habs by lia; f_equal; now apply mtpa_magnitude_last|].
  split; [apply torque_returns_of|]. split; [apply torque_returns_of|].
  unfold torque_of. cbn [real imag]. rewrite Hpsi.
  unfold current_sq in Hi'. rewrite <- syrm_sample_magnitude in Hi'. fold x in Hi'.
  pose proof sqrt2_sqr as H2.
  assert (Hsum : real i' ^ 2 + imag i' ^ 2 = 2 * (x * x)) by nra.
  assert (Hprod : real i' * imag i' <= x * x).
  { pose proof (pow2_ge_0 (real i' - imag i')). nra. }
  assert (Hk : 0 <= 1.5 * IZR (p self) * (L_d self - L_q self)).
  { apply Rmult_le_pos; [|lra].
    apply Rmult_le_pos; [lra|]. now apply IZR_le. }
  nra.
Qed.

Lemma mtpa_syrm_optimal_witness :
  exists locus i T T',
    returns (mtpa 10 4) syrm_floor_zero = Ok locus
    /\ finite_point (nth 3 locus (C128 NaN NaN)) i
    /\ C.abs (nth 3 locus (C128 NaN NaN)) = Fin (mtpa_magnitude 10 4 3)
    /\ C.abs (nth (Z.to_nat 4 - 1) locus (C128 NaN NaN)) = Fin 10
    /\ returns (torque i) syrm_floor_zero = Ok T
    /\ returns (torque (Cplx 10 0)) syrm_floor_zero = Ok T'
    /\ T' <= T.
Proof.
  apply (mtpa_syrm_optimal syrm_floor_zero 10 4 0 3 (Cplx 10 0)).
  - reflexivity.
  - reflexivity.
  - lra.
  - simpl. lra.
  - simpl. lia.
  - lra.
  - lia.
  - simpl. lia.
  - unfold current_sq, mtpa_magnitude. simpl. lra.
Defined.

(** X7: the floor of the SyRM branch against the current limit.  With
    [i_d_min <= i_max/sqrt(2)] every MTPA point stays within [|i| <= i_max];
    with [i_d_min > i_max/sqrt(2)] the last point lies outside that circle.
    A positive [i_d_min] moves the first point from the origin to
    [i_d_min + 0j]. *)
Theorem mtpa_syrm_floor_and_limit
  (self : OptimalLoci) (i_max : R) (N : Z) (m : R) :
  psi_f self = 0 -> i_d_min self = Some m -> 0 < i_max -> (2 <= N)%Z ->
  exists locus,
    returns (mtpa i_max N) self = Ok locus
    /\ (m <= i_max / sqrt 2 ->
        forall j, (j < Z.to_nat N)%nat ->
        exists i, finite_point (nth j locus (C128 NaN NaN)) i
                  /\ current_sq i <= i_max ^ 2)
    /\ (i_max / sqrt 2 < m ->
        exists i, finite_point (nth (Z.to_nat N - 1) locus (C128 NaN NaN)) i
                  /\ i_max ^ 2 < current_sq i)
    /\ (0 < m -> nth 0 locus (C128 NaN NaN) = C128 (Fin m) (Fin 0)).
Proof.
  intros Hpsi Hm Himax HN.
  rewrite (mtpa_syrm_returns self i_max N m) by (assumption || lia).
  eexists. split; [reflexivity|].
  pose proof sqrt2_pos as H2p. pose proof sqrt2_sqr as H2.
  assert (Hs : i_max / sqrt 2 * sqrt 2 = i_max) by (field; lra).
  assert (Hs0 : 0 < i_max / sqrt 2) by (apply Rdiv_lt_0_compat; lra).
  split; [|split].
  - intros Hle j Hj. rewrite nth_map_samples by exact Hj.
    rewrite mtpa_syrm_point_eq, syrm_sample_eq by assumption.
    pose proof (syrm_sample_bounds i_max N j HN Hj ltac:(lra)) as Hb.
    set (s := i_max / sqrt 2) in *.
    set (x := syrm_sample i_max N j) in *.
    exists (Cplx (if Rlt_dec x m then m else x) x).
    split; [reflexivity|].
    unfold current_sq. cbn [real imag].
    assert (Hs2 : 2 * (s * s) = i_max ^ 2) by (rewrite <- Hs; nra).
    destruct (Rlt_dec x m); nra.
  - intros Hgt. rewrite nth_map_samples by lia.
    rewrite mtpa_syrm_point_eq, sample_last by exact HN.
    set (s := i_max / sqrt 2) in *.
    exists (Cplx (if Rlt_dec s m then m else s) s).
    split; [reflexivity|].
    unfold current_sq. cbn [real imag].
    assert (Hs2 : 2 * (s * s) = i_max ^ 2) by (rewrite <- Hs; nra).
    destruct (Rlt_dec s m); [nra|lra].
  - intros Hpos. rewrite nth_map_samples by lia.
    rewrite mtpa_syrm_point_eq, sample_first by exact HN.
    destruct (Rlt_dec 0 m); [reflexivity|lra].
Qed.

Lemma mtpa_syrm_floor_and_limit_witness :
  exists locus,
    returns (mtpa 1 4) syrm_floor_two = Ok locus
    /\ nth 0 locus (C128 NaN NaN) = C128 (Fin 2) (Fin 0)
    /\ exists i, finite_point (nth 3 locus (C128 NaN NaN)) i
                 /\ 1 ^ 2 < current_sq i.
Proof.
  destruct (mtpa_syrm_floor_and_limit syrm_floor_two 1 4 2)
    as [locus [Hr [_ [Hout Hfirst]]]].
  - reflexivity.
  - reflexivity.
  - lra.
  - lia.
  - exists locus. split; [exact Hr|]. split; [apply Hfirst; lra|].
    apply Hout.
    assert (1 < sqrt 2).
    { rewrite <- sqrt_1 at 1. apply sqrt_lt_1_alt. lra. }
    apply (Rmult_lt_reg_r (sqrt 2)); [lra|].
    unfold Rdiv. rewrite Rmult_assoc, Rinv_l by lra. lra.
Defined.

(** ** SyRM: geometry and optimality of the MTPV locus *)

Lemma mtpv_syrm_returns (rounding : R -> R)
  (self : OptimalLoci) (i_max : R) (N : Z) :
  psi_f self = 0 -> L_q self <> 0 -> (0 <= N)%Z ->
  returns (mtpv rounding i_max N) self =
  Ok (map (mtpv_syrm_point (atan (L_d self / L_q self))) (samples 0 i_max N)).
Proof.
  intros Hpsi Hq HN.
  rewrite mtpv_syrm by exact Hpsi.
  rewrite linspace_samples by exact HN. cbn [on_ok].
  now rewrite py_div_ok by exact Hq.
Qed.

(** [abs_i*exp(1j*theta)] in polar form. *)
Lemma polar_point (theta x : R) :
  C.mul (C.of_float (Fin x)) (np_exp (C.mul C.j (C.of_float (Fin theta))))
  = C128 (Fin (x * cos theta)) (Fin (x * sin theta)).
Proof.
  unfold C.mul, C.of_float, C.j, np_exp, F.sub, F.add, F.mul, F.lift2.
  cbn [re128 im128].
  replace (0 * theta - 1 * 0) with 0 by ring.
  replace (0 * 0 + 1 * theta) with theta by ring.
  rewrite exp_0. f_equal; f_equal; ring.
Qed.

Lemma cos_atan_pos (t : R) : 0 < cos (atan t).
Proof.
  pose proof (atan_bound t) as [Hlo Hhi].
  apply cos_gt_0; lra.
Qed.

Lemma sin_atan_cos (t : R) : sin (atan t) = t * cos (atan t).
Proof.
  pose proof (cos_atan_pos t) as Hc.
  pose proof (tan_atan t) as Ht. unfold tan in Ht.
  rewrite <- Ht at 2. field. lra.
Qed.

Lemma sin2_cos2_pow (a : R) : cos a ^ 2 + sin a ^ 2 = 1.
Proof.
  pose proof (sin2_cos2 a) as H. unfold Rsqr in H. lra.
Qed.

Lemma polar_abs (theta x : R) :
  0 <= x ->
  C.abs (C128 (Fin (x * cos theta)) (Fin (x * sin theta))) = Fin x.
Proof.
  intros Hx.
  pose proof (sin2_cos2_pow theta) as Hone.
  unfold C.abs, F.sq, F.add, F.mul, F.lift2. cbn [re128 im128].
  assert (Hsq : x * cos theta * (x * cos theta)
                + x * sin theta * (x * sin theta) = x * x).
  { transitivity (x * x * (cos theta ^ 2 + sin theta ^ 2)); [ring|].
    rewrite Hone. ring. }
  rewrite Hsq, F_sqrt_nonneg by nra.
  f_equal. now apply sqrt_square.
Qed.

Lemma mtpv_syrm_points (rounding : R -> R)
  (self : OptimalLoci) (i_max : R) (N : Z) :
  psi_f self = 0 -> L_q self <> 0 -> (2 <= N)%Z ->
  exists locus,
    returns (mtpv rounding i_max N) self = Ok locus
    /\ length locus = Z.to_nat N
    /\ forall j, (j < Z.to_nat N)%nat ->
       finite_point (nth j locus (C128 NaN NaN))
                    (mtpv_syrm_current self (mtpa_magnitude i_max N j)).
Proof.
  intros Hpsi Hq HN.
  rewrite mtpv_syrm_returns by (assumption || lia).
  eexists. split; [reflexivity|].
  split; [now rewrite length_map, samples_length|].
  intros j Hj. unfold finite_point. rewrite nth_map_samples by exact Hj.
  rewrite mtpa_sample_magnitude by assumption.
  unfold mtpv_syrm_point, mtpv_syrm_current. cbn [real imag].
  apply polar_point.
Qed.

Lemma mtpv_syrm_current_line (self : OptimalLoci) (x : R) :
  L_q self <> 0 ->
  L_q self * imag (mtpv_syrm_current self x)
  = L_d self * real (mtpv_syrm_current self x).
Proof.
  intros Hq. unfold mtpv_syrm_current. cbn [real imag].
  rewrite sin_atan_cos.
  set (c := cos (atan (L_d self / L_q self))).
  transitivity (x * c * (L_d self / L_q self * L_q self)); [ring|].
  replace (L_d self / L_q self * L_q self) with (L_d self)
    by (field; exact Hq).
  ring.
Qed.

(** X8: on a SyRM solver with [L_q != 0], every MTPV point lies on the line
    [L_q*i_q = L_d*i_d] (the angle [atan(L_d/L_q)] from the d-axis), has
    [i_d >= 0], and its modulus is the sample [j*i_max/(N-1)], with [i_max]
    at the last point. *)
Theorem mtpv_syrm_line (rounding : R -> R)
  (self : OptimalLoci) (i_max : R) (N : Z) :
  psi_f self = 0 -> L_q self <> 0 -> 0 <= i_max -> (2 <= N)%Z ->
  exists locus,
    returns (mtpv rounding i_max N) self = Ok locus
    /\ length locus = Z.to_nat N
    /\ (forall j, (j < Z.to_nat N)%nat ->
        exists i,
          finite_point (nth j locus (C128 NaN NaN)) i
          /\ L_q self * imag i = L_d self * real i
          /\ 0 <= real i
          /\ C.abs (nth j locus (C128 NaN NaN))
             = Fin (mtpa_magnitude i_max N j))
    /\ C.abs (nth (Z.to_nat N - 1) locus (C128 NaN NaN)) = Fin i_max.
Proof.
  intros Hpsi Hq Himax HN.
  destruct (mtpv_syrm_points rounding self i_max N Hpsi Hq HN)
    as [locus [Hr [Hl Hpt]]].
  exists locus. split; [exact Hr|]. split; [exact Hl|].
  pose proof (cos_atan_pos (L_d self / L_q self)) as Hcos.
  split.
  - intros j Hj.
    pose proof (mtpa_magnitude_nonneg i_max N j HN Himax) as Hx.
    exists (mtpv_syrm_current self (mtpa_magnitude i_max N j)).
    split; [now apply Hpt|].
    split; [now apply mtpv_syrm_current_line|].
    split; [unfold mtpv_syrm_current; cbn [real imag]; nra|].
    rewrite (Hpt j Hj). unfold mtpv_syrm_current. cbn [real imag].
    now apply polar_abs.
  - rewrite (Hpt (Z.to_nat N - 1)%nat ltac:(lia)).
    unfold mtpv_syrm_current. cbn [real imag].
    rewrite mtpa_magnitude_last by exact HN.
    now apply polar_abs.
Qed.

Lemma mtpv_syrm_line_witness :
  exists locus,
    returns (mtpv no_rounding 10 4) syrm_no_floor = Ok locus
    /\ length locus = 4%nat
    /\ C.abs (nth (Z.to_nat 4 - 1) locus (C128 NaN NaN)) = Fin 10.
Proof.
  destruct (mtpv_syrm_line no_rounding syrm_no_floor 10 4)
    as [locus [Hr [Hl [_ Hlast]]]].
  - reflexivity.
  - simpl. lra.
  - lra.
  - lia.
  - exists locus. repeat split; assumption.
Defined.

(** X9: maximum torque per flux on a SyRM.  At every MTPV point the two
    flux components are equal, [L_d*i_d = L_q*i_q]; on a solver with
    [L_d >= L_q > 0] and a number of pole pairs [p >= 0], no current vector
    with the same flux magnitude gives more torque. *)
Theorem mtpv_syrm_optimal (rounding : R -> R)
  (self : OptimalLoci) (i_max : R) (N : Z) (j : nat) (i' : complex) :
  psi_f self = 0 -> 0 < L_q self -> L_q self <= L_d self ->
  (0 <= p self)%Z -> (2 <= N)%Z -> (j < Z.to_nat N)%nat ->
  flux_sq self i'
  = flux_sq self (mtpv_syrm_current self (mtpa_magnitude i_max N j)) ->
  exists locus i T T',
    returns (mtpv rounding i_max N) self = Ok locus
    /\ finite_point (nth j locus (C128 NaN NaN)) i
    /\ real (psi_spec self i) = imag (psi_spec self i)
    /\ returns (torque i) self = Ok T
    /\ returns (torque i') self = Ok T'
    /\ T' <= T.
Proof.
  intros Hpsi Hq Hdq Hp HN Hj Hflux.
  destruct (mtpv_syrm_points rounding self i_max N Hpsi ltac:(lra) HN)
    as [locus [Hr [_ Hpt]]].
  pose proof (mtpv_syrm_current_line self (mtpa_magnitude i_max N j)
                ltac:(lra)) as Hline.
  set (i := mtpv_syrm_current self (mtpa_magnitude i_max N j)) in *.
  exists locus, i, (torque_of self i), (torque_of self i').
  split; [exact Hr|]. split; [now apply Hpt|].
  split; [unfold psi_spec; cbn [real imag]; rewrite Hpsi; lra|].
  split; [apply torque_returns_of|]. split; [apply torque_returns_of|].
  unfold flux_sq, psi_spec in Hflux. cbn [real imag] in Hflux.
  rewrite Hpsi in Hflux.
  unfold torque_of. rewrite Hpsi.
  set (d := real i) in *. set (q := imag i) in *.
  set (d' := real i') in *. set (q' := imag i') in *.
  assert (Hprod : L_d self * d' * (L_q self * q')
                  <= L_d self * d * (L_q self * q)).
  { pose proof (pow2_ge_0 (L_d self * d' - L_q self * q')).
    rewrite <- Hline in *. nra. }
  assert (HLL : 0 < L_d self * L_q self) by nra.
  assert (Hdq' : d' * q' <= d * q).
  { apply (Rmult_le_reg_l (L_d self * L_q self)); [exact HLL|]. nra. }
  assert (Hk : 0 <= 1.5 * IZR (p self) * (L_d self - L_q self)).
  { apply Rmult_le_pos; [|lra].
    apply Rmult_le_pos; [lra|]. now apply IZR_le. }
  nra.
Qed.

(** The competitor of the witness has the flux components [7/5] and [1/5]
    of those of the MTPV point: the same flux magnitude, since
    [(7/5)^2 + (1/5)^2 = 2], at another angle. *)
Lemma mtpv_syrm_optimal_witness :
  exists locus i T T',
    returns (mtpv no_rounding 10 4) syrm_no_floor = Ok locus
    /\ finite_point (nth 2 locus (C128 NaN NaN)) i
    /\ returns (torque i) syrm_no_floor = Ok T
    /\ returns (torque (Cplx (7 / 5 * real i) (1 / 5 * imag i)))
         syrm_no_floor = Ok T'
    /\ Cplx (7 / 5 * real i) (1 / 5 * imag i) <> i
    /\ T' <= T.
Proof.
  pose proof (mtpv_syrm_current_line syrm_no_floor (mtpa_magnitude 10 4 2)
                ltac:(simpl; lra)) as Hline.
  cbn [L_d L_q syrm_no_floor] in Hline.
  destruct (mtpv_syrm_optimal no_rounding syrm_no_floor 10 4 2
              (Cplx (7 / 5 * real (mtpv_syrm_current syrm_no_floor
                                     (mtpa_magnitude 10 4 2)))
                    (1 / 5 * imag (mtpv_syrm_current syrm_no_floor
                                     (mtpa_magnitude 10 4 2)))))
    as [locus [i [T [T' [Hr [Hfin [_ [HT [HT' Hle]]]]]]]]].
  - reflexivity.
  - simpl. lra.
  - simpl. lra.
  - simpl. lia.
  - lia.
  - simpl. lia.
  - unfold flux_sq, psi_spec. cbn [real imag L_d L_q psi_f syrm_no_floor].
    set (d := real (mtpv_syrm_current syrm_no_floor (mtpa_magnitude 10 4 2)))
      in *.
    set (q := imag (mtpv_syrm_current syrm_no_floor (mtpa_magnitude 10 4 2)))
      in *.
    assert (Hq : q = 4 * d) by lra.
    rewrite Hq. field.
  - assert (Hi : i = mtpv_syrm_current syrm_no_floor (mtpa_magnitude 10 4 2)).
    { destruct (mtpv_syrm_points no_rounding syrm_no_floor 10 4
                  ltac:(reflexivity) ltac:(simpl; lra) ltac:(lia))
        as [locus' [Hr' [_ Hpt]]].
      rewrite Hr in Hr'. injection Hr' as <-.
      specialize (Hpt 2%nat ltac:(simpl; lia)).
      unfold finite_point in Hfin, Hpt. rewrite Hfin in Hpt.
      injection Hpt as Hre Him.
      destruct i as [re im]. cbn [real imag] in Hre, Him.
      unfold mtpv_syrm_current in *. cbn [real imag] in Hre, Him.
      now rewrite Hre, Him. }
    exists locus, i, T, T'.
    split; [exact Hr|]. split; [exact Hfin|]. split; [exact HT|].
    rewrite Hi. split; [exact HT'|]. split; [|exact Hle].
    intros Heq. apply (f_equal real) in Heq.
    unfold mtpv_syrm_current in Heq. cbn [real] in Heq.
    pose proof (cos_atan_pos (L_d syrm_no_floor / L_q syrm_no_floor)) as Hc.
    assert (Hx : 0 < mtpa_magnitude 10 4 2)
      by (unfold mtpa_magnitude; simpl; lra).
    nra.
Defined.

(** ** IPMSM: start and optimality of the MTPV locus *)

(** The root satisfies the quadratic it is computed from. *)
Lemma mtpv_root_quadratic (self : OptimalLoci) (x : R) :
  L_d self <> 0 -> 0 <= discriminant self x ->
  mtpv_a self * mtpv_root self x ^ 2 + mtpv_b self * mtpv_root self x
  + mtpv_c (mtpv_k self) (psi_f self) (L_q self) x = 0.
Proof.
  intros Hd HD.
  pose proof (sqrt_sqrt _ HD) as Hs.
  pose proof (mtpv_divisor_nonzero self Hd) as H2a.
  unfold mtpv_root.
  set (s := sqrt (discriminant self x)) in *.
  unfold discriminant, mtpv_disc in Hs.
  set (a := mtpv_a self) in *. set (b := mtpv_b self) in *.
  set (c := mtpv_c (mtpv_k self) (psi_f self) (L_q self) x) in *.
  assert (Ha : a <> 0) by lra.
  replace (a * ((- b - s) / (2 * a)) ^ 2 + b * ((- b - s) / (2 * a)) + c)
    with ((s * s - (b ^ 2 - 4 * a * c)) / (4 * a)) by (field; exact Ha).
  rewrite Hs. unfold Rdiv. ring.
Qed.

(** The exact MTPV point of an IPMSM with [L_d < L_q] at a magnitude [x]
    from the knee upwards. *)
Lemma mtpv_current_facts (self : OptimalLoci) (x : R) :
  0 < L_d self -> L_d self < L_q self -> 0 < psi_f self ->
  psi_f self / L_d self <= x ->
  - x <= real (mtpv_current self x) <= - (psi_f self / L_d self)
  /\ 0 <= imag (mtpv_current self x)
  /\ current_sq (mtpv_current self x) = x ^ 2.
Proof.
  intros Hd Hlt Hpsi Hx.
  pose proof (mtpv_root_bounds self x Hd Hlt Hpsi Hx) as [Hlo Hhi].
  pose proof (mtpv_root_below_knee self x Hd ltac:(lra) Hx) as Hknee.
  destruct (mtpv_root_in_circle self x Hd Hlt Hpsi Hx) as [_ Hsq].
  unfold mtpv_current, current_sq. cbn [real imag].
  split; [lra|]. split; [apply sqrt_pos|].
  pose proof (sqrt_sqrt (x ^ 2 - mtpv_root self x ^ 2) ltac:(lra)) as Hq.
  nra.
Qed.

(** The element that the code computes there: NaN+NaNj when the computed
    difference is negative, a point with the exact [i_d] otherwise, and the
    exact point when the subtraction is exact. *)
Lemma mtpv_point_facts (rounding : R -> R) (self : OptimalLoci) (x : R) :
  0 < L_d self -> L_d self < L_q self -> 0 < psi_f self ->
  psi_f self / L_d self <= x ->
  (mtpv_difference rounding self x < 0 ->
   mtpv_element rounding self x = C128 NaN NaN)
  /\ (0 <= mtpv_difference rounding self x ->
      finite_point (mtpv_element rounding self x)
        (Cplx (real (mtpv_current self x))
              (sqrt (mtpv_difference rounding self x))))
  /\ (rounding x = 0 ->
      finite_point (mtpv_element rounding self x) (mtpv_current self x)).
Proof.
  intros Hd Hlt Hpsi Hx.
  assert (HD : 0 <= discriminant self x)
    by (apply discriminant_nonneg; lra).
  destruct (mtpv_element_cases rounding self x HD) as [Hnan Hfin].
  destruct (mtpv_root_in_circle self x Hd Hlt Hpsi Hx) as [_ Hsq].
  unfold finite_point, mtpv_current. cbn [real imag].
  split; [exact Hnan|]. split; [exact Hfin|].
  intros Hexact.
  assert (Hdiff : mtpv_difference rounding self x
                  = x ^ 2 - mtpv_root self x ^ 2)
    by (unfold mtpv_difference; rewrite Hexact; ring).
  rewrite Hfin by (rewrite Hdiff; lra). now rewrite Hdiff.
Qed.

Lemma mtpv_sample_magnitude (self : OptimalLoci) (i_max : R) (N : Z) (j : nat) :
  (2 <= N)%Z -> (j < Z.to_nat N)%nat ->
  sample (psi_f self / L_d self) i_max N j = mtpv_magnitude self i_max N j.
Proof. intros HN Hj. now rewrite sample_linear by assumption. Qed.

(** X10: on a valid IPMSM solver with [L_d < L_q] the first MTPV sample has
    [i_d = -psi_f/L_d], and the computed [|i|^2 - i_d^2] is there the
    rounding error alone: the first point is NaN+NaNj when the subtraction
    rounds below zero, [-psi_f/L_d + j*sqrt(error)] otherwise, and
    [-psi_f/L_d + 0j] when it is exact.  At every sample the root [i_d]
    satisfies [a*i_d^2 + b*i_d + c = 0] and [-|i| <= i_d <= -psi_f/L_d];
    the point is NaN+NaNj when the computed difference is negative and has
    the real part [i_d] and [i_q >= 0] otherwise. *)
Theorem mtpv_ipmsm_start (rounding : R -> R) (self : OptimalLoci)
  (i_max : R) (N : Z) :
  valid self -> 0 < psi_f self -> L_d self < L_q self ->
  psi_f self / L_d self < i_max -> (2 <= N)%Z ->
  exists locus,
    returns (mtpv rounding i_max N) self = Ok locus
    /\ (rounding (psi_f self / L_d self) < 0 ->
        nth 0 locus (C128 (Fin 0) (Fin 0)) = C128 NaN NaN)
    /\ (0 <= rounding (psi_f self / L_d self) ->
        nth 0 locus (C128 (Fin 0) (Fin 0))
        = C128 (Fin (- (psi_f self / L_d self)))
               (Fin (sqrt (rounding (psi_f self / L_d self)))))
    /\ (rounding (psi_f self / L_d self) = 0 ->
        nth 0 locus (C128 (Fin 0) (Fin 0))
        = C128 (Fin (- (psi_f self / L_d self))) (Fin 0))
    /\ forall j, (j < Z.to_nat N)%nat ->
       - mtpv_magnitude self i_max N j
         <= mtpv_root self (mtpv_magnitude self i_max N j)
         <= - (psi_f self / L_d self)
       /\ mtpv_a self * mtpv_root self (mtpv_magnitude self i_max N j) ^ 2
          + mtpv_b self * mtpv_root self (mtpv_magnitude self i_max N j)
          + mtpv_c (mtpv_k self) (psi_f self) (L_q self)
                   (mtpv_magnitude self i_max N j) = 0
       /\ (mtpv_difference rounding self (mtpv_magnitude self i_max N j) < 0
           -> nth j locus (C128 (Fin 0) (Fin 0)) = C128 NaN NaN)
       /\ (0 <= mtpv_difference rounding self (mtpv_magnitude self i_max N j)
           -> exists i,
                finite_point (nth j locus (C128 (Fin 0) (Fin 0))) i
                /\ real i = mtpv_root self (mtpv_magnitude self i_max N j)
                /\ 0 <= imag i
                /\ imag i ^ 2
                   = mtpv_difference rounding self
                       (mtpv_magnitude self i_max N j)).
Proof.
  intros [Hd _] Hpsi Hlt Hknee HN.
  rewrite mtpv_above_knee by (lra || lia).
  eexists. split; [reflexivity|].
  assert (H0 : nth 0 (map (mtpv_element rounding self)
                        (samples (psi_f self / L_d self) i_max N))
                 (C128 (Fin 0) (Fin 0))
               = mk_current (Fin (- (psi_f self / L_d self)))
                   (F.sqrt (Fin (rounding (psi_f self / L_d self))))).
  { rewrite nth_map_samples by lia.
    rewrite sample_first by exact HN.
    rewrite mtpv_element_root by (apply discriminant_nonneg; lra).
    rewrite mtpv_difference_knee, mtpv_root_knee by assumption.
    reflexivity. }
  split; [|split; [|split]].
  - intros Hneg. rewrite H0, F_sqrt_negative by exact Hneg.
    apply mk_current_nan.
  - intros Hpos. rewrite H0, F_sqrt_nonneg by exact Hpos.
    apply mk_current_fin.
  - intros Hexact. rewrite H0, Hexact, F_sqrt_nonneg by lra.
    rewrite sqrt_0. apply mk_current_fin.
  - intros j Hj. rewrite nth_map_samples by exact Hj.
    pose proof (sample_bounds (psi_f self / L_d self) i_max N j HN Hj
                  ltac:(lra)) as [Hlo _].
    rewrite mtpv_sample_magnitude in * by assumption.
    set (x := mtpv_magnitude self i_max N j) in *.
    destruct (mtpv_current_facts self x Hd Hlt Hpsi Hlo) as [Hb _].
    destruct (mtpv_point_facts rounding self x Hd Hlt Hpsi Hlo)
      as [Hnan [Hfin _]].
    split; [exact Hb|].
    split; [apply mtpv_root_quadratic;
            [lra|apply discriminant_nonneg; lra]|].
    split; [exact Hnan|].
    intros Hpos. eexists. split; [exact (Hfin Hpos)|].
    cbn [real imag]. split; [reflexivity|]. split; [apply sqrt_pos|].
    pose proof (sqrt_sqrt _ Hpos). lra.
Qed.

Lemma mtpv_ipmsm_start_witness :
  (exists locus,
     returns (mtpv no_rounding 2 5) ipmsm = Ok locus
     /\ nth 0 locus (C128 (Fin 0) (Fin 0))
        = C128 (Fin (- (psi_f ipmsm / L_d ipmsm))) (Fin 0))
  /\ (exists locus,
        returns (mtpv rounds_down 2 5) ipmsm = Ok locus
        /\ nth 0 locus (C128 (Fin 0) (Fin 0)) = C128 NaN NaN).
Proof.
  split.
  - destruct (mtpv_ipmsm_start no_rounding ipmsm 2 5)
      as [locus [Hr [_ [_ [H0 _]]]]].
    + exact ipmsm_valid.
    + simpl. lra.
    + simpl. lra.
    + simpl. lra.
    + lia.
    + exists locus. split; [exact Hr|]. now apply H0.
  - destruct (mtpv_ipmsm_start rounds_down ipmsm 2 5)
      as [locus [Hr [H0 _]]].
    + exact ipmsm_valid.
    + simpl. lra.
    + simpl. lra.
    + simpl. lra.
    + lia.
    + exists locus. split; [exact Hr|].
      apply H0. unfold rounds_down. lra.
Defined.

(** In terms of the flux linkage the torque of a machine with
    [0 < L_d < L_q] is a positive multiple of [psi_q*(c - psi_d)] with
    [c = psi_f*L_q/(L_q - L_d)]. *)
Lemma torque_of_flux (self : OptimalLoci) (i : complex) :
  0 < L_d self -> L_d self < L_q self ->
  torque_of self i =
  1.5 * IZR (p self) * ((L_q self - L_d self) / (L_d self * L_q self))
  * (imag (psi_spec self i)
     * (psi_f self * L_q self / (L_q self - L_d self)
        - real (psi_spec self i))).
Proof.
  intros Hd Hlt. unfold torque_of, psi_spec. cbn [real imag].
  field. repeat split; lra.
Qed.

(** X11: maximum torque per flux.  On a valid IPMSM solver with
    [L_d < L_q], let [i] be the exact point [i_d + j*sqrt(|i|^2 - i_d^2)] of
    the [j]-th MTPV sample.  No current vector with the flux magnitude of
    [i] gives more torque than [i].  The [j]-th point of the returned locus
    is [i] when the subtraction [|i|^2 - i_d^2] is exact there; it is
    NaN+NaNj when the computed difference is negative, and otherwise has the
    d-axis current of [i]. *)
Theorem mtpv_ipmsm_optimal (rounding : R -> R)
  (self : OptimalLoci) (i_max : R) (N : Z) (j : nat) (i' : complex) :
  valid self -> 0 < psi_f self -> L_d self < L_q self ->
  psi_f self / L_d self < i_max -> (2 <= N)%Z -> (j < Z.to_nat N)%nat ->
  flux_sq self i'
  = flux_sq self (mtpv_current self (mtpv_magnitude self i_max N j)) ->
  exists locus i T T',
    returns (mtpv rounding i_max N) self = Ok locus
    /\ i = mtpv_current self (mtpv_magnitude self i_max N j)
    /\ (rounding (mtpv_magnitude self i_max N j) = 0 ->
        finite_point (nth j locus (C128 (Fin 0) (Fin 0))) i)
    /\ (mtpv_difference rounding self (mtpv_magnitude self i_max N j) < 0 ->
        nth j locus (C128 (Fin 0) (Fin 0)) = C128 NaN NaN)
    /\ (0 <= mtpv_difference rounding self (mtpv_magnitude self i_max N j) ->
        finite_point (nth j locus (C128 (Fin 0) (Fin 0)))
          (Cplx (real i)
                (sqrt (mtpv_difference rounding self
                         (mtpv_magnitude self i_max N j)))))
    /\ flux_sq self i' = flux_sq self i
    /\ returns (torque i) self = Ok T
    /\ returns (torque i') self = Ok T'
    /\ T' <= T.
Proof.
  intros [Hd [Hq [_ Hp]]] Hpsi Hlt Hknee HN Hj Hflux.
  rewrite mtpv_above_knee by (lra || lia).
  pose proof (sample_bounds (psi_f self / L_d self) i_max N j HN Hj
                ltac:(lra)) as [Hlo _].
  rewrite mtpv_sample_magnitude in Hlo by assumption.
  set (x := mtpv_magnitude self i_max N j) in *.
  destruct (mtpv_current_facts self x Hd Hlt Hpsi Hlo)
    as [[_ Hhi] [Hq0 Hcirc]].
  destruct (mtpv_point_facts rounding self x Hd Hlt Hpsi Hlo)
    as [Hnan [Hfin Hexact]].
  assert (HD : 0 <= discriminant self x)
    by (apply discriminant_nonneg; lra).
  destruct (mtpv_root_in_circle self x Hd Hlt Hpsi Hlo) as [_ Hin].
  pose proof (mtpv_root_quadratic self x ltac:(lra) HD) as Hquad.
  eexists. exists (mtpv_current self x),
    (torque_of self (mtpv_current self x)), (torque_of self i').
  split; [reflexivity|].
  split; [reflexivity|].
  rewrite nth_map_samples by exact Hj.
  rewrite mtpv_sample_magnitude by assumption. fold x.
  split; [exact Hexact|]. split; [exact Hnan|]. split; [exact Hfin|].
  split; [exact Hflux|].
  split; [apply torque_returns_of|]. split; [apply torque_returns_of|].
  rewrite !torque_of_flux by assumption.
  set (c := psi_f self * L_q self / (L_q self - L_d self)).
  assert (Hc0 : 0 < c).
  { unfold c. apply Rdiv_lt_0_compat; [|lra]. now apply Rmult_lt_0_compat. }
  assert (Hck : c = - (psi_f self * mtpv_k self))
    by (unfold c, mtpv_k; field; split; lra).
  unfold flux_sq in Hflux.
  unfold current_sq, mtpv_current in Hcirc. cbn [real imag] in Hcirc.
  assert (Hmax :
    imag (psi_spec self i') * (c - real (psi_spec self i'))
    <= imag (psi_spec self (mtpv_current self x))
       * (c - real (psi_spec self (mtpv_current self x)))).
  { apply (circle_max c
             (real (psi_spec self (mtpv_current self x)) ^ 2
              + imag (psi_spec self (mtpv_current self x)) ^ 2));
      try assumption; try reflexivity.
    - unfold psi_spec, mtpv_current. cbn [real imag].
      unfold mtpv_current in Hhi. cbn [real] in Hhi.
      apply (Rmult_le_compat_l (L_d self)) in Hhi; [|lra].
      replace (L_d self * - (psi_f self / L_d self)) with (- psi_f self) in Hhi
        by (field; lra).
      lra.
    - unfold psi_spec, mtpv_current. cbn [real imag].
      unfold mtpv_current in Hq0. cbn [imag] in Hq0.
      apply Rmult_le_pos; [lra|exact Hq0].
    - (* the stationarity condition is the quadratic *)
      rewrite Hck. unfold psi_spec, mtpv_current. cbn [real imag].
      unfold mtpv_a, mtpv_b, mtpv_c in Hquad.
      set (r := mtpv_root self x) in *.
      set (k := mtpv_k self) in *.
      pose proof (sqrt_sqrt (x ^ 2 - r ^ 2) ltac:(lra)) as Hqq.
      set (q := sqrt (x ^ 2 - r ^ 2)) in *.
      assert (Hq2 : q ^ 2 = x ^ 2 - r ^ 2) by lra.
      assert (Hq2' : (L_q self * q) ^ 2 = L_q self ^ 2 * (x ^ 2 - r ^ 2))
        by (rewrite <- Hq2; ring).
      rewrite Hq2'.
      assert (Hz : (L_d self * r + psi_f self) ^ 2
                   + psi_f self * k * (L_d self * r + psi_f self)
                   - L_q self ^ 2 * (x ^ 2 - r ^ 2) = 0).
      { rewrite <- Hquad. ring. }
      lra. }
  assert (Hk : 0 <= 1.5 * IZR (p self)
                    * ((L_q self - L_d self) / (L_d self * L_q self))).
  { apply Rmult_le_pos.
    - apply Rmult_le_pos; [lra|]. apply IZR_le. lia.
    - left. apply Rdiv_lt_0_compat; [lra|]. now apply Rmult_lt_0_compat. }
  now apply Rmult_le_compat_l.
Qed.

(** The competitor of the witness: the mirror image of the MTPV point in
    the line [psi_d = 0] of the flux plane, a different current with the
    same flux magnitude. *)
Lemma mtpv_ipmsm_optimal_witness :
  exists locus i T T',
    returns (mtpv no_rounding 2 5) ipmsm = Ok locus
    /\ i = mtpv_current ipmsm (mtpv_magnitude ipmsm 2 5 2)
    /\ finite_point (nth 2 locus (C128 (Fin 0) (Fin 0))) i
    /\ returns (torque i) ipmsm = Ok T
    /\ returns (torque (Cplx (- 2 - real i) (imag i))) ipmsm = Ok T'
    /\ Cplx (- 2 - real i) (imag i) <> i
    /\ T' <= T.
Proof.
  destruct (mtpv_ipmsm_optimal no_rounding ipmsm 2 5 2
              (Cplx (- 2 - real (mtpv_current ipmsm
                                   (mtpv_magnitude ipmsm 2 5 2)))
                    (imag (mtpv_current ipmsm
                             (mtpv_magnitude ipmsm 2 5 2)))))
    as [locus [i [T [T' [Hr [Hi [Hex [_ [_ [_ [HT [HT' Hle]]]]]]]]]]]].
  - exact ipmsm_valid.
  - simpl. lra.
  - simpl. lra.
  - simpl. lra.
  - lia.
  - simpl. lia.
  - unfold flux_sq, psi_spec. cbn [real imag L_d L_q psi_f ipmsm]. ring.
  - exists locus, i, T, T'.
    split; [exact Hr|]. split; [exact Hi|].
    split; [now apply Hex|]. split; [exact HT|].
    rewrite Hi. split; [exact HT'|]. split; [|exact Hle].
    intros Heq. apply (f_equal real) in Heq.
    unfold mtpv_current in Heq. cbn [real] in Heq.
    assert (Hx : psi_f ipmsm / L_d ipmsm <= mtpv_magnitude ipmsm 2 5 2)
      by (unfold mtpv_magnitude; simpl; lra).
    pose proof (mtpv_root_quadratic ipmsm (mtpv_magnitude ipmsm 2 5 2)
                  ltac:(simpl; lra)
                  ltac:(apply discriminant_nonneg; simpl; lra || exact Hx))
      as Hquad.
    set (r := mtpv_root ipmsm (mtpv_magnitude ipmsm 2 5 2)) in *.
    unfold mtpv_a, mtpv_b, mtpv_c, mtpv_k, mtpv_magnitude in Hquad.
    simpl in Hquad.
    assert (Hr1 : r = - 1) by lra.
    rewrite Hr1 in Hquad. lra.
Defined.

(** ** Torque of conjugate currents and of arrays *)

(** X12: replacing a current by its complex conjugate negates the torque;
    a current on the d-axis gives no torque. *)
Theorem torque_conjugate (self : OptimalLoci) (i : complex) :
  exists T,
    returns (torque i) self = Ok T
    /\ returns (torque (PyC.conj i)) self = Ok (- T)
    /\ returns (torque (Cplx (real i) 0)) self = Ok 0.
Proof.
  exists (torque_of self i).
  rewrite !torque_returns_of. unfold torque_of, PyC.conj. cbn [real imag].
  repeat split; f_equal; ring.
Qed.

Lemma torque_array_returns (self : OptimalLoci) (a : list complex128) :
  returns (torque_array a) self =
  Ok (map (torque_elem (p self) (L_d self) (L_q self) (psi_f self)) a).
Proof. reflexivity. Qed.

Lemma torque_elem_finite (self : OptimalLoci) (i : complex) :
  torque_elem (p self) (L_d self) (L_q self) (psi_f self)
              (C128 (Fin (real i)) (Fin (imag i)))
  = Fin (torque_of self i).
Proof.
  unfold torque_elem, flux128, torque_of, C.mul, C.add, C.of_float,
    NP.conj, NP.neg, NP.of_py, PyC.mul, PyC.j, PyC.of_float,
    F.mul, F.add, F.sub, F.lift2.
  cbn [re128 im128 real imag]. f_equal. ring.
Qed.

Lemma torque_elem_nan (self_p : Z) (self_L_d self_L_q self_psi_f : R) :
  torque_elem self_p self_L_d self_L_q self_psi_f (C128 NaN NaN) = NaN.
Proof. reflexivity. Qed.

(** X13: [torque] applied to an array, as [plot] does, returns one value per
    element; at an element with real parts it is the torque of that
    current, and at a NaN+NaNj element it is NaN. *)
Theorem torque_array_elementwise
  (self : OptimalLoci) (a : list complex128) (j : nat) :
  (j < length a)%nat ->
  exists Ts,
    returns (torque_array a) self = Ok Ts
    /\ length Ts = length a
    /\ (forall i, finite_point (nth j a (C128 NaN NaN)) i ->
        exists T, returns (torque i) self = Ok T /\ nth j Ts NaN = Fin T)
    /\ (nth j a (C128 NaN NaN) = C128 NaN NaN -> nth j Ts (Fin 0) = NaN).
Proof.
  intros Hj. rewrite torque_array_returns.
  eexists. split; [reflexivity|]. split; [apply length_map|].
  set (f := torque_elem (p self) (L_d self) (L_q self) (psi_f self)).
  assert (Hnth : forall d, nth j (map f a) d = f (nth j a (C128 NaN NaN))).
  { intros d. rewrite (nth_indep _ d (f (C128 NaN NaN)))
      by (rewrite length_map; exact Hj).
    apply map_nth. }
  split.
  - intros i Hi. exists (torque_of self i).
    split; [apply torque_returns_of|].
    rewrite Hnth, Hi. apply torque_elem_finite.
  - intros Hnan. now rewrite Hnth, Hnan.
Qed.

Lemma torque_array_elementwise_witness :
  exists Ts,
    returns (torque_array [C128 (Fin 0) (Fin 1); C128 NaN NaN]) ipmsm = Ok Ts
    /\ nth 0 Ts NaN = Fin 4.5
    /\ nth 1 Ts (Fin 0) = NaN.
Proof.
  destruct (torque_array_elementwise ipmsm
              [C128 (Fin 0) (Fin 1); C128 NaN NaN] 0 ltac:(simpl; lia))
    as [Ts [Hr [_ [Hfin _]]]].
  destruct (torque_array_elementwise ipmsm
              [C128 (Fin 0) (Fin 1); C128 NaN NaN] 1 ltac:(simpl; lia))
    as [Ts' [Hr' [_ [_ Hnan]]]].
  rewrite Hr in Hr'. injection Hr' as <-.
  exists Ts. split; [exact Hr|]. split.
  - destruct (Hfin (Cplx 0 1) eq_refl) as [T [HT Hn]].
    rewrite Hn. f_equal.
    rewrite torque_returns_of in HT. injection HT as <-.
    unfold torque_of. simpl. lra.
  - apply Hnan. reflexivity.
Defined.

(** ** The computations of [plot] *)

Lemma run_readonly {A : Type} (m : M A) (self : OptimalLoci) :
  readonly m -> m self = (returns m self, self).
Proof.
  intros Hm. specialize (Hm self). unfold leaves, returns in *.
  destruct (m self) as [r s]. simpl in *. now subst s.
Qed.

Lemma torque_array_readonly (a : list complex128) : readonly (torque_array a).
Proof. unfold torque_array. repeat readonly_step. Qed.

(** The steps of [plot_characteristics], one after the other. *)
Lemma plot_characteristics_returns (rounding : R -> R)
  (self : OptimalLoci) (i_max : R) (N : Z) :
  returns (plot_characteristics rounding i_max N) self =
  on_ok (linspace 0 PI (2 * N)) (fun theta =>
    on_ok (returns (mtpa i_max N) self) (fun i_mtpa =>
      on_ok (returns (torque_array i_mtpa) self) (fun T_M_mtpa =>
        on_ok (returns (mtpv rounding i_max N) self) (fun i_mtpv =>
          on_ok (if NP.any i_mtpv
                 then on_ok (returns (torque_array i_mtpv) self)
                            (fun T => Ok (Some T))
                 else Ok None)
            (fun T_M_mtpv =>
               Ok (Characteristics (map (limit_point i_max) theta)
                     i_mtpa T_M_mtpa i_mtpv T_M_mtpv)))))).
Proof.
  unfold plot_characteristics, returns at 1, bind, lift.
  destruct (linspace 0 PI (2 * N)) as [theta|e]; cbn [on_ok fst]; [|reflexivity].
  rewrite (run_readonly (mtpa i_max N)) by apply mtpa_readonly.
  destruct (returns (mtpa i_max N) self) as [ia|e]; cbn [on_ok fst];
    [|reflexivity].
  rewrite (run_readonly (torque_array ia)) by apply torque_array_readonly.
  rewrite torque_array_returns. cbn [on_ok].
  rewrite (run_readonly (mtpv rounding i_max N)) by apply mtpv_readonly.
  destruct (returns (mtpv rounding i_max N) self) as [iv|e]; cbn [on_ok fst];
    [|reflexivity].
  destruct (NP.any iv); [|reflexivity].
  rewrite (run_readonly (torque_array iv)) by apply torque_array_readonly.
  rewrite torque_array_returns. reflexivity.
Qed.

(** X14: on a valid IPMSM solver with [L_d != L_q] and
    [psi_f/L_d >= i_max], [plot] raises [UnboundLocalError] from its call
    of [mtpv], after the MTPA locus and its torque have been computed: the
    case is not handled by the [T_M_mtpv = None] branch. *)
Theorem plot_raises_below_knee (rounding : R -> R)
  (self : OptimalLoci) (i_max : R) (N : Z) :
  valid self -> 0 < psi_f self -> L_d self <> L_q self ->
  i_max <= psi_f self / L_d self -> (0 <= N)%Z ->
  (exists locus, returns (mtpa i_max N) self = Ok locus)
  /\ returns (plot_characteristics rounding i_max N) self
     = Raise UnboundLocalError.
Proof.
  intros [Hd _] Hpsi Hdq Hknee HN.
  assert (Ha : returns (mtpa i_max N) self =
               Ok (map (mtpa_ipmsm_point (psi_f self / (L_d self - L_q self)))
                       (samples 0 i_max N)))
    by (apply mtpa_ipmsm_returns; lra || lia).
  split; [eexists; exact Ha|].
  rewrite plot_characteristics_returns.
  rewrite linspace_samples by lia. cbn [on_ok].
  rewrite Ha. cbn [on_ok]. rewrite torque_array_returns. cbn [on_ok].
  rewrite mtpv_below_knee by lra. reflexivity.
Qed.

Lemma plot_raises_below_knee_witness :
  returns (plot_characteristics no_rounding 10 5) ipmsm_example
  = Raise UnboundLocalError.
Proof.
  apply (plot_raises_below_knee no_rounding ipmsm_example 10 5).
  - unfold valid. simpl. repeat split; try lra; lia.
  - simpl. lra.
  - simpl. lra.
  - simpl. lra.
  - lia.
Defined.

Lemma sample_zero (start stop : R) (num : Z) :
  (1 <= num)%Z -> sample start stop num 0 = start.
Proof.
  intros Hnum. unfold sample.
  destruct (Z.ltb_spec 1 num) as [H1|H1].
  - destruct (Nat.eqb_spec 1 (Z.to_nat num)) as [E|_]; [lia|].
    simpl INR. ring.
  - simpl INR. ring.
Qed.

Lemma any_first {f : R -> complex128} (start stop : R) (num : Z) :
  (1 <= num)%Z -> NP.nonzero (f start) = true ->
  NP.any (map f (samples start stop num)) = true.
Proof.
  intros Hnum Hnz. unfold NP.any, samples.
  destruct (Z.to_nat num) as [|n] eqn:E; [lia|].
  cbn [seq map existsb].
  rewrite <- (sample_zero start stop num Hnum) in Hnz.
  now rewrite Hnz.
Qed.

(** From the knee upwards the MTPV element is not zero: it is NaN+NaNj or
    has a negative real part. *)
Lemma mtpv_element_nonzero (rounding : R -> R) (self : OptimalLoci) (x : R) :
  0 < L_d self -> 0 < psi_f self -> psi_f self / L_d self <= x ->
  NP.nonzero (mtpv_element rounding self x) = true.
Proof.
  intros Hd Hpsi Hx.
  assert (HD : 0 <= discriminant self x)
    by (apply discriminant_nonneg; lra).
  pose proof (mtpv_root_below_knee self x Hd ltac:(lra) Hx) as Hroot.
  assert (Hu : 0 < psi_f self / L_d self) by (apply Rdiv_lt_0_compat; lra).
  destruct (mtpv_element_cases rounding self x HD) as [Hnan Hfin].
  destruct (Rlt_dec (mtpv_difference rounding self x) 0) as [Hneg|Hpos].
  - now rewrite Hnan by exact Hneg.
  - rewrite Hfin by lra.
    unfold NP.nonzero. cbn [re128 im128].
    destruct (Req_dec_T (mtpv_root self x) 0) as [Er|_]; [lra|reflexivity].
Qed.

(** What [plot_characteristics] returns on an IPMSM above the knee. *)
Lemma plot_ipmsm_returns (rounding : R -> R)
  (self : OptimalLoci) (i_max : R) (N : Z) :
  0 < L_d self -> 0 < psi_f self -> L_d self <> L_q self ->
  psi_f self / L_d self < i_max -> (1 <= N)%Z ->
  returns (plot_characteristics rounding i_max N) self =
  Ok (Characteristics
        (map (limit_point i_max) (samples 0 PI (2 * N)))
        (map (mtpa_ipmsm_point (psi_f self / (L_d self - L_q self)))
             (samples 0 i_max N))
        (map (torque_elem (p self) (L_d self) (L_q self) (psi_f self))
             (map (mtpa_ipmsm_point (psi_f self / (L_d self - L_q self)))
                  (samples 0 i_max N)))
        (map (mtpv_element rounding self)
             (samples (psi_f self / L_d self) i_max N))
        (Some (map (torque_elem (p self) (L_d self) (L_q self) (psi_f self))
                   (map (mtpv_element rounding self)
                        (samples (psi_f self / L_d self) i_max N))))).
Proof.
  intros Hd Hpsi Hdq Hknee HN.
  rewrite plot_characteristics_returns.
  rewrite linspace_samples by lia. cbn [on_ok].
  rewrite mtpa_ipmsm_returns by (lra || lia). cbn [on_ok].
  rewrite torque_array_returns. cbn [on_ok].
  rewrite mtpv_above_knee by (lra || lia). cbn [on_ok].
  assert (Hu : 0 < psi_f self / L_d self) by (apply Rdiv_lt_0_compat; lra).
  rewrite any_first.
  - rewrite torque_array_returns. reflexivity.
  - exact HN.
  - apply mtpv_element_nonzero; lra.
Qed.

(** X15: on an IPMSM solver ([psi_f > 0], [L_d > 0]) and for [N >= 1], a
    [plot] that gets past its computations never takes the
    [T_M_mtpv = None] branch: the MTPV locus has a non-zero element and its
    torque is computed, one value per point. *)
Theorem plot_mtpv_torque_present (rounding : R -> R)
  (self : OptimalLoci) (i_max : R) (N : Z) (ch : characteristics) :
  0 < L_d self -> 0 < psi_f self -> (1 <= N)%Z ->
  returns (plot_characteristics rounding i_max N) self = Ok ch ->
  NP.any (i_mtpv ch) = true
  /\ exists T,
       T_M_mtpv ch = Some T
       /\ length T = Z.to_nat N
       /\ length (i_mtpv ch) = Z.to_nat N
       /\ length (T_M_mtpa ch) = Z.to_nat N
       /\ length (i_mtpa ch) = Z.to_nat N.
Proof.
  intros Hd Hpsi HN Hr.
  destruct (Req_dec_T (L_d self) (L_q self)) as [E|Hdq].
  { (* no saliency: mtpa divides by zero *)
    rewrite plot_characteristics_returns in Hr.
    rewrite linspace_samples in Hr by lia. cbn [on_ok] in Hr.
    rewrite mtpa_ipmsm in Hr by lra.
    rewrite linspace_samples in Hr by lia. cbn [on_ok] in Hr.
    replace (L_d self - L_q self) with 0 in Hr by lra.
    rewrite py_div_zero in Hr. discriminate Hr. }
  destruct (Rlt_dec (psi_f self / L_d self) i_max) as [Hknee|Hknee].
  - rewrite plot_ipmsm_returns in Hr by assumption.
    injection Hr as <-. cbn [i_mtpv T_M_mtpv T_M_mtpa i_mtpa].
    assert (Hu : 0 < psi_f self / L_d self) by (apply Rdiv_lt_0_compat; lra).
    split.
    + apply any_first; [exact HN|].
      apply mtpv_element_nonzero; lra.
    + eexists. split; [reflexivity|].
      repeat rewrite length_map. rewrite !samples_length. auto.
  - rewrite plot_characteristics_returns in Hr.
    rewrite linspace_samples in Hr by lia. cbn [on_ok] in Hr.
    rewrite mtpa_ipmsm_returns in Hr by (lra || lia). cbn [on_ok] in Hr.
    rewrite torque_array_returns in Hr. cbn [on_ok] in Hr.
    rewrite mtpv_below_knee in Hr by lra. discriminate Hr.
Qed.

Lemma plot_mtpv_torque_present_witness :
  exists ch T,
    returns (plot_characteristics no_rounding 2 5) ipmsm = Ok ch
    /\ T_M_mtpv ch = Some T /\ length T = 5%nat.
Proof.
  assert (Hr : exists ch,
            returns (plot_characteristics no_rounding 2 5) ipmsm = Ok ch).
  { eexists. apply plot_ipmsm_returns; simpl; lra || lia. }
  destruct Hr as [ch Hr].
  destruct (plot_mtpv_torque_present no_rounding ipmsm 2 5 ch)
    as [_ [T [HT [Hl _]]]].
  - simpl. lra.
  - simpl. lra.
  - lia.
  - exact Hr.
  - exists ch, T. repeat split; assumption.
Defined.

(** Whatever else [plot_characteristics] returns, its current limit is the
    image of the angles. *)
Lemma plot_i_lim (rounding : R -> R) (self : OptimalLoci) (i_max : R) (N : Z)
  (ch : characteristics) :
  returns (plot_characteristics rounding i_max N) self = Ok ch ->
  (0 <= N)%Z
  /\ i_lim ch = map (limit_point i_max) (samples 0 PI (2 * N)).
Proof.
  intros Hr. rewrite plot_characteristics_returns in Hr.
  destruct (linspace_cases 0 PI (2 * N)) as [[HN E]|[HN E]];
    rewrite E in Hr; cbn [on_ok] in Hr; [discriminate Hr|].
  split; [lia|].
  destruct (returns (mtpa i_max N) self) as [ia|e]; cbn [on_ok] in Hr;
    [|discriminate Hr].
  rewrite torque_array_returns in Hr. cbn [on_ok] in Hr.
  destruct (returns (mtpv rounding i_max N) self) as [iv|e]; cbn [on_ok] in Hr;
    [|discriminate Hr].
  destruct (NP.any iv); [rewrite torque_array_returns in Hr|];
    cbn [on_ok] in Hr; injection Hr as <-; reflexivity.
Qed.

Lemma limit_point_polar (i_max theta : R) :
  limit_point i_max theta
  = C128 (Fin (i_max * cos theta)) (Fin (i_max * sin theta)).
Proof. unfold limit_point. apply polar_point. Qed.

(** X16: the current limit that [plot] computes consists of [2*N] points on
    the circle of radius [i_max], in the half plane [Im >= 0], starting at
    [i_max + 0j]. *)
Theorem plot_current_limit (rounding : R -> R)
  (self : OptimalLoci) (i_max : R) (N : Z) (ch : characteristics) :
  0 <= i_max -> (1 <= N)%Z ->
  returns (plot_characteristics rounding i_max N) self = Ok ch ->
  length (i_lim ch) = Z.to_nat (2 * N)
  /\ (forall j, (j < Z.to_nat (2 * N))%nat ->
      exists i, finite_point (nth j (i_lim ch) (C128 NaN NaN)) i
                /\ current_sq i = i_max ^ 2 /\ 0 <= imag i)
  /\ nth 0 (i_lim ch) (C128 NaN NaN) = C128 (Fin i_max) (Fin 0).
Proof.
  intros Himax HN Hr.
  destruct (plot_i_lim rounding self i_max N ch Hr) as [_ ->].
  split; [now rewrite length_map, samples_length|].
  split.
  - intros j Hj. rewrite nth_map_samples by exact Hj.
    rewrite limit_point_polar.
    pose proof (sample_bounds 0 PI (2 * N) j ltac:(lia) Hj
                  ltac:(pose proof PI_RGT_0; lra)) as [Hlo Hhi].
    set (theta := sample 0 PI (2 * N) j) in *.
    exists (Cplx (i_max * cos theta) (i_max * sin theta)).
    split; [reflexivity|]. unfold current_sq. cbn [real imag].
    split.
    + pose proof (sin2_cos2_pow theta) as Hone.
      transitivity (i_max ^ 2 * (cos theta ^ 2 + sin theta ^ 2)); [ring|].
      rewrite Hone. ring.
    + apply Rmult_le_pos; [exact Himax|]. now apply sin_ge_0.
  - rewrite nth_map_samples by lia.
    rewrite sample_first, limit_point_polar by lia.
    rewrite cos_0, sin_0. f_equal; f_equal; ring.
Qed.

Lemma plot_current_limit_witness :
  exists ch,
    returns (plot_characteristics no_rounding 2 5) ipmsm = Ok ch
    /\ length (i_lim ch) = 10%nat
    /\ nth 0 (i_lim ch) (C128 NaN NaN) = C128 (Fin 2) (Fin 0).
Proof.
  assert (Hr : exists ch,
            returns (plot_characteristics no_rounding 2 5) ipmsm = Ok ch).
  { eexists. apply plot_ipmsm_returns; simpl; lra || lia. }
  destruct Hr as [ch Hr].
  destruct (plot_current_limit no_rounding ipmsm 2 5 ch
              ltac:(lra) ltac:(lia) Hr)
    as [Hl [_ H0]].
  exists ch. repeat split; assumption.
Defined.

(** ** Loci of fewer than two samples *)

Lemma samples_one (start stop : R) : samples start stop 1 = [start].
Proof.
  unfold samples. simpl. f_equal. unfold sample. simpl. ring.
Qed.

Lemma samples_none (start stop : R) : samples start stop 0 = [].
Proof. reflexivity. Qed.

(** X17: with [N = 1] a locus is its start point alone and [i_max] is not
    sampled.  On a valid IPMSM solver with [L_d < L_q] above the knee,
    [mtpa] returns the origin; [mtpv] returns the one point of the knee,
    whose [i_d] is [-psi_f/L_d] and whose [i_q] is [np.sqrt] of the rounding
    error of [|i|^2 - i_d^2]: NaN+NaNj when the subtraction rounds below
    zero, [-psi_f/L_d + 0j] when it is exact.  With [N = 0] both return an
    empty locus. *)
Theorem loci_of_few_samples (rounding : R -> R) (self : OptimalLoci)
  (i_max : R) :
  valid self -> 0 < psi_f self -> L_d self < L_q self ->
  psi_f self / L_d self < i_max ->
  returns (mtpa i_max 1) self = Ok [C128 (Fin 0) (Fin 0)]
  /\ returns (mtpv rounding i_max 1) self
     = Ok [mk_current (Fin (- (psi_f self / L_d self)))
                      (F.sqrt (Fin (rounding (psi_f self / L_d self))))]
  /\ (rounding (psi_f self / L_d self) < 0 ->
      returns (mtpv rounding i_max 1) self = Ok [C128 NaN NaN])
  /\ (0 <= rounding (psi_f self / L_d self) ->
      returns (mtpv rounding i_max 1) self
      = Ok [C128 (Fin (- (psi_f self / L_d self)))
                 (Fin (sqrt (rounding (psi_f self / L_d self))))])
  /\ (rounding (psi_f self / L_d self) = 0 ->
      returns (mtpv rounding i_max 1) self
      = Ok [C128 (Fin (- (psi_f self / L_d self))) (Fin 0)])
  /\ returns (mtpa i_max 0) self = Ok []
  /\ returns (mtpv rounding i_max 0) self = Ok [].
Proof.
  intros [Hd _] Hpsi Hlt Hknee.
  pose proof (ipmsm_i_a_negative self Hpsi Hlt) as Hia.
  rewrite !mtpa_ipmsm_returns by (lra || lia).
  rewrite !mtpv_above_knee by (lra || lia).
  rewrite !samples_one, !samples_none. cbn [map].
  rewrite mtpa_ipmsm_point_origin by exact Hia.
  rewrite mtpv_element_root by (apply discriminant_nonneg; lra).
  rewrite mtpv_difference_knee, mtpv_root_knee by assumption.
  split; [reflexivity|]. split; [reflexivity|].
  split; [|split; [|split; [|split; reflexivity]]].
  - intros Hneg. rewrite F_sqrt_negative by exact Hneg.
    now rewrite mk_current_nan.
  - intros Hpos. rewrite F_sqrt_nonneg by exact Hpos.
    now rewrite mk_current_fin.
  - intros Hexact. rewrite Hexact, F_sqrt_nonneg by lra.
    now rewrite sqrt_0, mk_current_fin.
Qed.

Lemma loci_of_few_samples_witness :
  returns (mtpa 2 1) ipmsm = Ok [C128 (Fin 0) (Fin 0)]
  /\ returns (mtpv no_rounding 2 1) ipmsm = Ok [C128 (Fin (- 1)) (Fin 0)]
  /\ returns (mtpv rounds_down 2 1) ipmsm = Ok [C128 NaN NaN]
  /\ returns (mtpv no_rounding 2 0) ipmsm = Ok [].
Proof.
  destruct (loci_of_few_samples no_rounding ipmsm 2)
    as [H1 [_ [_ [_ [Hexact [_ H0]]]]]].
  - exact ipmsm_valid.
  - simpl. lra.
  - simpl. lra.
  - simpl. lra.
  - destruct (loci_of_few_samples rounds_down ipmsm 2)
      as [_ [_ [Hnan _]]].
    + exact ipmsm_valid.
    + simpl. lra.
    + simpl. lra.
    + simpl. lra.
    + split; [exact H1|]. split; [|split; [|exact H0]].
      * rewrite Hexact by reflexivity.
        simpl. do 4 f_equal. lra.
      * apply Hnan. unfold rounds_down. lra.
Defined.

(** ** Zero divisors *)

(** X18: the divisions of the loci methods.  On an IPMSM solver [mtpv] with
    [L_d == 0] raises [ZeroDivisionError] before it samples, whatever [N]
    is; with [L_d == L_q] and [N >= 0], [mtpa] raises [ZeroDivisionError],
    and so does [mtpv] above the knee.  On a SyRM solver with [L_q == 0],
    [mtpv] raises [ZeroDivisionError] for [N >= 0]; [np.linspace] comes
    first and raises [ValueError] for [N < 0]. *)
Theorem loci_zero_divisors (rounding : R -> R)
  (self : OptimalLoci) (i_max : R) (N : Z) :
  (psi_f self <> 0 -> L_d self = 0 ->
   returns (mtpv rounding i_max N) self = Raise ZeroDivisionError)
  /\ (psi_f self <> 0 -> L_d self = L_q self -> (0 <= N)%Z ->
      returns (mtpa i_max N) self = Raise ZeroDivisionError
      /\ (L_d self <> 0 -> psi_f self / L_d self < i_max ->
          returns (mtpv rounding i_max N) self = Raise ZeroDivisionError))
  /\ (psi_f self = 0 -> L_q self = 0 ->
      ((0 <= N)%Z ->
       returns (mtpv rounding i_max N) self = Raise ZeroDivisionError)
      /\ ((N < 0)%Z ->
          returns (mtpv rounding i_max N) self = Raise ValueError)).
Proof.
  split; [|split].
  - intros Hpsi Hd. rewrite mtpv_ipmsm by exact Hpsi.
    rewrite Hd, py_div_zero. reflexivity.
  - intros Hpsi Hdq HN. split.
    + rewrite mtpa_ipmsm by exact Hpsi.
      rewrite linspace_samples by exact HN. cbn [on_ok].
      replace (L_d self - L_q self) with 0 by lra.
      now rewrite py_div_zero.
    + intros Hd Hknee. rewrite mtpv_ipmsm by exact Hpsi.
      rewrite py_div_ok by exact Hd. cbn [on_ok].
      destruct (Rlt_dec (psi_f self / L_d self) i_max); [|lra].
      rewrite linspace_samples by exact HN. cbn [on_ok].
      replace (L_d self - L_q self) with 0 by lra.
      now rewrite py_div_zero.
  - intros Hpsi Hq. rewrite mtpv_syrm by exact Hpsi. split.
    + intros HN. rewrite linspace_samples by exact HN. cbn [on_ok].
      now rewrite Hq, py_div_zero.
    + intros HN. now rewrite linspace_negative by exact HN.
Qed.

Lemma loci_zero_divisors_witness :
  returns (mtpv no_rounding 2 5) (Self 3 0 1 1 None) = Raise ZeroDivisionError
  /\ returns (mtpa 2 5) spm = Raise ZeroDivisionError
  /\ returns (mtpv no_rounding 2 5) (Self 3 1 0 0 None)
     = Raise ZeroDivisionError
  /\ returns (mtpv no_rounding 2 (-1)) (Self 3 1 0 0 None) = Raise ValueError.
Proof.
  split; [|split; [|split]].
  - apply (proj1 (loci_zero_divisors no_rounding (Self 3 0 1 1 None) 2 5));
      [simpl; lra|reflexivity].
  - apply (proj1 (proj2 (loci_zero_divisors no_rounding spm 2 5)));
      [simpl; lra|reflexivity|lia].
  - apply (proj2 (proj2 (loci_zero_divisors no_rounding
                           (Self 3 1 0 0 None) 2 5)));
      [reflexivity|reflexivity|lia].
  - apply (proj2 (proj2 (loci_zero_divisors no_rounding
                           (Self 3 1 0 0 None) 2 (-1))));
      [reflexivity|reflexivity|lia].
Defined.
